(** * ressim / mpflow.py : two-point flux pressure solver on a rectangular grid

    Shallow embedding of [src/mpflow.py] and the properties of its
    transmissibility assembly, Dirichlet imposition, upwind convection
    assembly and of the [PressureSolver] object.

    Conventions of the embedding.
    - numpy [float64] values are exact rationals [Q]; rounding, overflow,
      [inf] and [nan] are outside the model.  Equality of computed values is
      [Qeq] ([==]); values that are only stored and read back are compared
      with [=].  The theorems equate an entry with the expression the code
      evaluates for it, in the code's order of evaluation, or bound its
      sign; identities that need the exact cancellation of a sum do not
      hold for the rounded values and are not stated.  [transmi] is given a
      second time on IEEE 754 binary64 numbers ([transmi64]), to evaluate it
      with its rounding on concrete inputs.
    - a two-dimensional [ndarray] is the list of its rows, a one-dimensional
      one the list of its entries; [reshape(n)] / [ravel()] is [mjoin].
      Arrays are taken with the shapes the docstrings give them; numpy's
      broadcasting of other shapes is not modelled, only the size check of
      [reshape].
    - a scipy CSR matrix is the list of its rows, each row the finite map
      from stored column index to stored value (the row's slice of
      [indices] / [data]).
    - sizes and cell indices are natural numbers; Python's negative indices
      are not modelled.
    - Python exceptions are the [Err] results of a small error monad; a
      warning has no effect on the result and is left out. *)

From Stdlib Require Import QArith Qminmax Qfield Lqa ZArith Lia.
From Stdlib Require Floats.PrimFloat Numbers.Cyclic.Int63.Uint63.
From stdpp Require Import gmap strings list fin_maps.

Local Open Scope nat_scope.

(** ** Exceptions and the error monad *)

Inductive exn : Type :=
| ValueError
| AssertionError
| AttributeError
| IndexError
| ZeroDivisionError
| TypeError.

Inductive result (A : Type) : Type :=
| Ok (a : A)
| Err (e : exn).
Arguments Ok {A} a.
Arguments Err {A} e.

#[global] Instance result_bind : MBind result := λ A B f r,
  match r with
  | Ok a => f a
  | Err e => Err e
  end.

#[global] Instance result_ret : MRet result := λ A a, Ok a.

#[global] Instance result_fmap : FMap result := λ A B f r,
  match r with
  | Ok a => Ok (f a)
  | Err e => Err e
  end.

(** ** Rational helpers *)

Definition Qsum (l : list Q) : Q := foldr Qplus 0%Q l.

(** [v != 0], the test of [eliminate_zeros] and of the DIA to CSR conversion. *)
Definition nonzero (v : Q) : Prop := ¬ (v == 0)%Q.

#[global] Instance nonzero_dec (v : Q) : Decision (nonzero v).
Proof. unfold nonzero. destruct (Qeq_dec v 0); [right | left]; tauto. Defined.

(** ** Sparse matrices in CSR form *)

Record csr : Type := Csr {
  ncols : nat;
  rows : list (gmap nat Q)
}.

Definition nrows (m : csr) : nat := length (rows m).

(** [mat[r, c]] read: the stored value, or zero where nothing is stored. *)
Definition row_get (row : gmap nat Q) (c : nat) : Q := default 0%Q (row !! c).

Definition csr_row (m : csr) (r : nat) : gmap nat Q := default ∅ (rows m !! r).

Definition csr_get (m : csr) (r c : nat) : Q := row_get (csr_row m r) c.

(** [mat.sum(axis=1)[r]], as the sum over all columns. *)
Definition row_sum (m : csr) (r : nat) : Q :=
  Qsum ((λ c, csr_get m r c) <$> seq 0 (ncols m)).

(** Modelled from the spec: [utils.csr_row_set_nz_to_val], whose module is
    not part of the sources.  Section 6 of the specification: "given a sparse
    matrix and a row index, zero every stored entry in that row without
    altering other rows' storage"; every stored entry of row [r] receives
    [v] and the sparsity pattern is kept.  A row index outside the matrix is
    an [IndexError]. *)
Definition csr_row_set_nz_to_val (m : csr) (r : nat) (v : Q) : result csr :=
  if decide (r < nrows m)
  then Ok (Csr (ncols m) (alter (fmap (λ _, v)) r (rows m)))
  else Err IndexError.

(** [mat[r, c] = v] on a CSR matrix: overwrite the stored entry, or insert a
    new one into the pattern. *)
Definition csr_setitem (m : csr) (r c : nat) (v : Q) : result csr :=
  if decide (r < nrows m ∧ c < ncols m)
  then Ok (Csr (ncols m) (alter (insert c v) r (rows m)))
  else Err IndexError.

(** [mat.eliminate_zeros()]: drop the stored entries equal to zero. *)
Definition eliminate_zeros (m : csr) : csr :=
  Csr (ncols m) (filter (λ cv : nat * Q, nonzero cv.2) <$> rows m).

(** [q[i] = val] on a one-dimensional array. *)
Definition vec_setitem (q : list Q) (i : nat) (v : Q) : result (list Q) :=
  if decide (i < length q) then Ok (<[i := v]> q) else Err IndexError.

(** ** [impose_diriBC] (mpflow.py, lines 181-197) *)

(** The [for i, val in diriBC] loop. *)
Fixpoint impose_loop (mat : csr) (q : list Q) (diriBC : list (nat * Q))
  : result (csr * list Q) :=
  match diriBC with
  | [] => Ok (mat, q)
  | (i, val) :: rest =>
      mat ← csr_row_set_nz_to_val mat i 0%Q ;
      mat ← csr_setitem mat i i 1%Q ;
      q ← vec_setitem q i val ;
      impose_loop mat q rest
  end.

Definition impose_diriBC (mat : csr) (q : list Q) (diriBC : list (nat * Q))
  : result (csr * list Q) :=
  '(mat, q) ← impose_loop mat q diriBC ;
  Ok (eliminate_zeros mat, q).

(** ** [Grid] (mpflow.py, lines 10-39) *)

Record Grid : Type := mkGrid {
  nx : nat; ny : nat;
  lx : Q; ly : Q;
  ncell : nat;
  dx : Q; dy : Q;
  vol : Q
}.

Definition Qnat (n : nat) : Q := inject_Z (Z.of_nat n).

(** Python's [a / b] on floats: division by zero raises. *)
Definition py_div (a b : Q) : result Q :=
  if Qeq_bool b 0 then Err ZeroDivisionError else Ok (a / b)%Q.

(** [Grid(nx, ny, lx, ly)]. *)
Definition Grid_init (nx ny : nat) (lx ly : Q) : result Grid :=
  let ncell := nx * ny in
  if decide (nx = 0 ∨ ny = 0) then Err ZeroDivisionError
  else
    let dx := (lx / Qnat nx)%Q in
    let dy := (ly / Qnat ny)%Q in
    Ok (mkGrid nx ny lx ly ncell dx dy (dx * dy)%Q).

(** ** Dense arrays: slices, slice assignment, reshape *)

(** [l[lo:hi]] *)
Definition slice {A : Type} (l : list A) (lo hi : nat) : list A :=
  take (hi - lo) (drop lo l).

(** [l[lo:hi] = v] for a right-hand side of the slice's length. *)
Definition set_slice {A : Type} (l : list A) (lo hi : nat) (v : list A) : list A :=
  take lo l ++ v ++ drop (lo `max` hi) l.

(** [a[:, lo:hi]] *)
Definition cols {A : Type} (a : list (list A)) (lo hi : nat) : list (list A) :=
  (λ row, slice row lo hi) <$> a.

(** [a[:, lo:hi] = v] *)
Definition set_cols {A : Type} (a : list (list A)) (lo hi : nat)
    (v : list (list A)) : list (list A) :=
  zip_with (λ row vr, set_slice row lo hi vr) a v.

(** [zeros((r, c))] *)
Definition zeros2 (r c : nat) : list (list Q) := replicate r (replicate c 0%Q).

(** Elementwise operations on arrays of one shape. *)
Definition ew1 (f : Q → Q → Q) (a b : list Q) : list Q := zip_with f a b.
Definition ew2 (f : Q → Q → Q) (a b : list (list Q)) : list (list Q) :=
  zip_with (zip_with f) a b.

(** A scalar function applied to every entry of a two-dimensional array. *)
Definition map2d (f : Q → Q) (a : list (list Q)) : list (list Q) :=
  fmap (M:=list) f <$> a.

(** [-a] *)
Definition neg (a : list Q) : list Q := Qopp <$> a.

(** [a.reshape(n)] of a two-dimensional array: the row-major data, when
    there are [n] entries. *)
Definition reshape1 (n : nat) (a : list (list Q)) : result (list Q) :=
  let l := mjoin a in
  if decide (length l = n) then Ok l else Err ValueError.

(** [a.reshape(r, c)] of a one-dimensional array. *)
Definition reshape2 (r c : nat) (l : list Q) : result (list (list Q)) :=
  if decide (length l = r * c) then Ok (reshape (replicate r c) l)
  else Err ValueError.

(** ** [scipy.sparse.spdiags(data, diags, m, n, format='csr')]

    [data[k][j]] is the entry in column [j] of the diagonal with offset
    [diags[k]], that is, at row [j - diags[k]].  The DIA constructor refuses
    repeated offsets and a number of diagonals different from the number of
    offsets with a [ValueError]; the conversion to CSR keeps the entries
    inside the [m] by [n] shape that are not zero. *)
Fixpoint dia_row (n r : nat) (diags : list Z) (data : list (list Q))
  : gmap nat Q :=
  match diags, data with
  | off :: diags', d :: data' =>
      let rest := dia_row n r diags' data' in
      let c := (Z.of_nat r + off)%Z in
      if decide (0 ≤ c < Z.of_nat n)%Z then
        match d !! Z.to_nat c with
        | Some v => if decide (nonzero v) then <[Z.to_nat c := v]> rest else rest
        | None => rest
        end
      else rest
  | _, _ => ∅
  end.

Definition spdiags (data : list (list Q)) (diags : list Z) (m n : nat)
  : result csr :=
  if decide (length data = length diags ∧ NoDup diags)
  then Ok (Csr n ((λ r, dia_row n r diags data) <$> seq 0 m))
  else Err ValueError.

(** ** [transmi] (mpflow.py, lines 142-163)

    [k] is the two-dimensional permeability array of shape [(ny, nx)].
    [2*dy/dx] and [2*dx/dy] divide Python floats and raise on a zero
    divisor; [1.0/k] divides arrays and does not raise (numpy's [inf] for a
    zero entry is not modelled: [k] is taken without zeros). *)
Definition transmi (grid : Grid) (k : list (list Q))
  : result (csr * list (list Q) * list (list Q)) :=
  let nx := nx grid in
  let ny := ny grid in
  let dx := dx grid in
  let dy := dy grid in
  let n := ncell grid in
  let kinv := map2d (Qdiv 1) k in
  ax ← py_div (2 * dy) dx;
  let tx := zeros2 ny (nx + 1) in
  ay ← py_div (2 * dx) dy;
  let ty := zeros2 (ny + 1) nx in
  let tx := set_cols tx 1 nx
              (ew2 (λ a b, ax / (a + b))%Q (cols kinv 0 (nx - 1)) (cols kinv 1 nx)) in
  let ty := set_slice ty 1 ny
              (ew2 (λ a b, ay / (a + b))%Q (slice kinv 0 (ny - 1)) (slice kinv 1 ny)) in
  x1 ← reshape1 n (cols tx 0 nx);
  x2 ← reshape1 n (cols tx 1 (nx + 1));
  y1 ← reshape1 n (slice ty 0 ny);
  y2 ← reshape1 n (slice ty 1 (ny + 1));
  let data := [neg y2; neg x2;
               ew1 Qplus (ew1 Qplus (ew1 Qplus x1 x2) y1) y2;
               neg x1; neg y1] in
  let diags := [(- Z.of_nat nx)%Z; (-1)%Z; 0%Z; 1%Z; Z.of_nat nx] in
  mat ← spdiags data diags n n;
  Ok (mat, tx, ty).

(** ** [convecti] (mpflow.py, lines 165-179) *)

(** The arrays a flux dictionary can hold: two-dimensional, as [step()]
    stores them, or with one more leading axis. *)
Inductive ndarray : Type :=
| Arr2 (a : list (list Q))
| Arr3 (a : list (list (list Q))).

(** The dictionary [{'x': ..., 'y': ...}]. *)
Record flux : Type := Flux { flux_x : ndarray; flux_y : ndarray }.

(** [minimum(a, 0)] and [maximum(a, 0)], elementwise. *)
Definition nd_map (f : Q → Q) (a : ndarray) : ndarray :=
  match a with
  | Arr2 a => Arr2 (map2d f a)
  | Arr3 a => Arr3 (map2d f <$> a)
  end.

Definition Qmin0 (x : Q) : Q := Qmin x 0.
Definition Qmax0 (x : Q) : Q := Qmax x 0.

(** [a[:, :, lo:hi]]: three indices need three axes. *)
Definition nd_index3_cols (a : ndarray) (lo hi : nat) : result (list (list (list Q))) :=
  match a with
  | Arr2 _ => Err IndexError
  | Arr3 a => Ok ((λ plane, cols plane lo hi) <$> a)
  end.

(** [a[:, lo:hi, :]] *)
Definition nd_index3_rows (a : ndarray) (lo hi : nat) : result (list (list (list Q))) :=
  match a with
  | Arr2 _ => Err IndexError
  | Arr3 a => Ok ((λ plane, slice plane lo hi) <$> a)
  end.

(** [a.reshape(n)] of a three-dimensional array. *)
Definition reshape1_3 (n : nat) (a : list (list (list Q))) : result (list Q) :=
  reshape1 n (mjoin a).

Definition convecti (grid : Grid) (v : flux) : result csr :=
  let nx := nx grid in
  let ny := ny grid in
  let n := ncell grid in
  let xn := nd_map Qmin0 (flux_x v) in
  x1 ← nd_index3_cols xn 0 nx ≫= reshape1_3 n;
  let yn := nd_map Qmin0 (flux_y v) in
  y1 ← nd_index3_rows yn 0 ny ≫= reshape1_3 n;
  let xp := nd_map Qmax0 (flux_x v) in
  x2 ← nd_index3_cols xp 1 (nx + 1) ≫= reshape1_3 n;
  let yp := nd_map Qmax0 (flux_y v) in
  y2 ← nd_index3_rows yp 1 (ny + 1) ≫= reshape1_3 n;
  let data := [neg y2; neg x2;
               ew1 Qminus (ew1 Qplus (ew1 Qminus x2 x1) y2) y1;
               x1; y1] in
  let diags := [(- Z.of_nat nx)%Z; (-1)%Z; 0%Z; 1%Z; Z.of_nat nx] in
  spdiags data diags n n.

(** ** [PressureSolver] (mpflow.py, lines 41-140)

    The instance is its attribute dictionary [self.__dict__].  The two
    properties [k] and [diriBC] are data descriptors of the class: reads and
    writes of [self.k] and [self.diriBC] go through the getter and the
    setter, which keep their value under the mangled names
    [_PressureSolver__k] and [_PressureSolver__diriBC]; every other
    attribute lives under its own name. *)

(** The mobility callable: saturation to [(mw, mo)], on row-major data. *)
Definition mobility : Type := list Q → list Q * list Q.

Inductive value : Type :=
| VNone
| VGrid (g : Grid)
| VArr1 (a : list Q)
| VArr2 (a : list (list Q))
| VPins (l : list (nat * Q))
| VFun (f : mobility)
| VFlux (x y : list (list Q)).

Definition getattr (self : gmap string value) (name : string) : result value :=
  match self !! name with
  | Some v => Ok v
  | None => Err AttributeError
  end.

Definition as_grid (v : value) : result Grid :=
  match v with VGrid g => Ok g | _ => Err TypeError end.

Definition as_arr2 (v : value) : result (list (list Q)) :=
  match v with VArr2 a => Ok a | _ => Err TypeError end.

Definition as_pins (v : value) : result (list (nat * Q)) :=
  match v with VPins l => Ok l | _ => Err TypeError end.

(** [copy(a).ravel()]: the row-major data of an array of either shape. *)
Definition ravel (v : value) : result (list Q) :=
  match v with
  | VArr1 a => Ok a
  | VArr2 a => Ok (mjoin a)
  | _ => Err TypeError
  end.

(** [k > 0], elementwise. *)
Definition gt0 (k : list (list Q)) : list (list bool) :=
  fmap (M:=list) (λ x, if Qlt_le_dec 0 x then true else false) <$> k.

(** [bool(a)] of a one-dimensional numpy array: the entry of a one-entry
    array, [False] for an empty one, and a [ValueError] ("the truth value of
    an array with more than one element is ambiguous") otherwise. *)
Definition array_truth (a : list bool) : result bool :=
  match a with
  | [] => Ok false
  | [b] => Ok b
  | _ :: _ :: _ => Err ValueError
  end.

(** The builtin [all] ([numpy.all] is not among the imported names): it
    iterates over the first axis and takes the truth value of each item,
    stopping at the first false one.  The items of a two-dimensional array
    are its rows. *)
Fixpoint py_all (items : list (list bool)) : result bool :=
  match items with
  | [] => Ok true
  | a :: rest =>
      b ← array_truth a;
      if b : bool then py_all rest else Ok false
  end.

(** The getter and the setter of the property [k]. *)
Definition get_k (self : gmap string value) : result value :=
  getattr self "_PressureSolver__k".

Definition set_k (self : gmap string value) (k : list (list Q))
  : result (gmap string value) :=
  b ← py_all (gt0 k);
  if b : bool then Ok (<["_PressureSolver__k" := VArr2 k]> self)
  else Err AssertionError.

(** The getter and the setter of the property [diriBC]. *)
Definition get_diriBC (self : gmap string value) : result value :=
  getattr self "_PressureSolver__diriBC".

Definition set_diriBC (self : gmap string value) (diriBC : option (list (nat * Q)))
  : result (gmap string value) :=
  match diriBC with
  | None =>
      grid ← getattr self "grid" ≫= as_grid;
      let n := ncell grid in
      Ok (<["_PressureSolver__diriBC" := VPins [(n / 2, 0%Q)]]> self)
  | Some _ => Ok self
  end.

Definition opt_value {A : Type} (f : A → value) (o : option A) : value :=
  match o with Some a => f a | None => VNone end.

(** [PressureSolver(grid, k, q, diriBC, mobi_fn, s)]; [q] and [s] are given
    by their row-major data. *)
Definition PressureSolver_init (grid : Grid) (k : list (list Q)) (q : list Q)
    (diriBC : option (list (nat * Q))) (mobi_fn : option mobility)
    (s : option (list Q)) : result (gmap string value) :=
  let self := <["grid" := VGrid grid]> (∅ : gmap string value) in
  self ← set_k self k;
  let self := <["q" := VArr1 q]> self in
  self ← set_diriBC self diriBC;
  let self := <["mobi_fn" := opt_value VFun mobi_fn]> self in
  let self := <["s" := opt_value VArr1 s]> self in
  let self := <["p" := VNone]> self in
  Ok (<["v" := VNone]> self).

(** [update], called with keyword arguments [params]:
    [self.__dict__.update(params)]. *)
Definition update (self params : gmap string value) : gmap string value :=
  params ∪ self.

(** The permeability used by [step]: weighted by the total mobility when
    both [mobi_fn] and [s] are set (otherwise a warning is issued and the
    intrinsic permeability is used).  This is the code's value for a [k] of
    the grid's shape and mobility arrays of one length; numpy's broadcasting
    of other shapes is not modelled. *)
Definition weighted_k (ny nx : nat) (k : list (list Q)) (mobi_fn s : value)
  : result (list (list Q)) :=
  match mobi_fn, s with
  | VNone, _ => Ok k
  | _, VNone => Ok k
  | VFun f, s =>
      s ← ravel s;
      let '(mw, mo) := f s in
      m ← reshape2 ny nx (ew1 Qplus mw mo);
      Ok (ew2 Qmult k m)
  | _, _ => Err TypeError
  end.

Section Step.
(** [scipy.sparse.linalg.spsolve], an external capability. *)
Variable spsolve : csr → list Q → result (list Q).

Definition step (self : gmap string value) : result (gmap string value) :=
  grid ← getattr self "grid" ≫= as_grid;
  k ← get_k self ≫= as_arr2;
  mobi_fn ← getattr self "mobi_fn";
  s ← getattr self "s";
  let nx := nx grid in
  let ny := ny grid in
  k ← weighted_k ny nx k mobi_fn s;
  '(mat, tx, ty) ← transmi grid k;
  q ← getattr self "q" ≫= ravel;
  diriBC ← get_diriBC self ≫= as_pins;
  '(mat, q) ← impose_diriBC mat q diriBC;
  p ← spsolve mat q;
  p ← reshape2 ny nx p;
  let vx := set_cols (zeros2 ny (nx + 1)) 1 nx
              (ew2 Qmult (ew2 Qminus (cols p 0 (nx - 1)) (cols p 1 nx))
                         (cols tx 1 nx)) in
  let vy := set_slice (zeros2 (ny + 1) nx) 1 ny
              (ew2 Qmult (ew2 Qminus (slice p 0 (ny - 1)) (slice p 1 ny))
                         (slice ty 1 ny)) in
  Ok (<["v" := VFlux vx vy]> (<["p" := VArr2 p]> self)).

(** Construct a solver and take one step. *)
Definition solve_once (grid : Grid) (k : list (list Q)) (q : list Q)
    (diriBC : option (list (nat * Q))) (mobi_fn : option mobility)
    (s : option (list Q)) : result (gmap string value) :=
  PressureSolver_init grid k q diriBC mobi_fn s ≫= step.
End Step.

(** ** Closed forms of the imposition loop *)

(** Row [r] once pinned: every stored entry zeroed, then [1] on the
    diagonal. *)
Definition pin_row (r : nat) (row : gmap nat Q) : gmap nat Q :=
  <[r := 1%Q]> ((λ _, 0%Q) <$> row).

(** The rows after the loop over [diriBC]. *)
Definition pinned_rows (rws : list (gmap nat Q)) (diriBC : list (nat * Q))
  : list (gmap nat Q) :=
  imap (λ r row, if decide (r ∈ diriBC.*1) then pin_row r row else row) rws.

(** The right-hand side after the loop over [diriBC]. *)
Definition pinned_q (q : list Q) (diriBC : list (nat * Q)) : list Q :=
  foldl (λ q iv, <[iv.1 := iv.2]> q) q diriBC.

(** The value of the last pair of [diriBC] whose index is [j]. *)
Fixpoint last_pin (diriBC : list (nat * Q)) (j : nat) : option Q :=
  match diriBC with
  | [] => None
  | (i, val) :: rest =>
      match last_pin rest j with
      | Some w => Some w
      | None => if decide (i = j) then Some val else None
      end
  end.

(** ** Reading and tabulating arrays *)

(** [a[j]] and [a[i, j]], zero outside the array. *)
Definition at1 (a : list Q) (j : nat) : Q := default 0%Q (a !! j).
Definition at2 (a : list (list Q)) (i j : nat) : Q := at1 (default [] (a !! i)) j.

(** The array [[F 0, ..., F (n-1)]]. *)
Definition tab {A : Type} (n : nat) (F : nat → A) : list A := F <$> seq 0 n.

(** [a] has shape [(r, c)]. *)
Definition has_shape (r c : nat) (a : list (list Q)) : Prop :=
  length a = r ∧ Forall (λ row, length row = c) a.

(** Every entry of [a] is strictly positive. *)
Definition all_positive (a : list (list Q)) : Prop :=
  Forall (Forall (λ x, 0 < x)%Q) a.

#[global] Instance Qlt_decision (x y : Q) : Decision (x < y)%Q.
Proof.
  destruct (Qlt_le_dec x y) as [H|H]; [by left|right].
  by apply Qle_not_lt.
Defined.

#[global] Instance all_positive_dec (a : list (list Q)) : Decision (all_positive a).
Proof. unfold all_positive. apply _. Defined.

(** The entry [(r, c)] that the diagonals [(diags, data)] define: the first
    diagonal through [(r, c)] gives it. *)
Fixpoint dia_get (n r : nat) (diags : list Z) (data : list (list Q)) (c : nat) : Q :=
  match diags, data with
  | off :: diags', d :: data' =>
      if decide ((Z.of_nat c = Z.of_nat r + off)%Z ∧ c < n)
      then at1 d c
      else dia_get n r diags' data' c
  | _, _ => 0%Q
  end.

(** ** The transmissibility system in the words of the specification *)

(** A grid as the constructor returns it. *)
Definition grid_ok (g : Grid) : Prop :=
  Grid_init (nx g) (ny g) (lx g) (ly g) = Ok g.

(** Face transmissibility in x: harmonic mean over the two cells of an
    interior face, zero on the boundary faces [j = 0] and [j = nx].  It is
    the expression the code evaluates where the permeability is not zero
    (next to a zero entry numpy's [1.0/0 = inf] gives the face the value
    zero); the theorems that use it take a strictly positive [k]. *)
Definition tx_spec (g : Grid) (k : list (list Q)) (i j : nat) : Q :=
  if decide (1 ≤ j ≤ nx g - 1)
  then (2 * dy g / dx g / (1 / at2 k i (j - 1) + 1 / at2 k i j))%Q
  else 0%Q.

(** Face transmissibility in y, zero on the faces [i = 0] and [i = ny]. *)
Definition ty_spec (g : Grid) (k : list (list Q)) (i j : nat) : Q :=
  if decide (1 ≤ i ≤ ny g - 1)
  then (2 * dx g / dy g / (1 / at2 k (i - 1) j + 1 / at2 k i j))%Q
  else 0%Q.

(** The four face transmissibilities of cell [m = i * nx + j]: west, east,
    south, north. *)
Definition x1_spec (g : Grid) (k : list (list Q)) (m : nat) : Q :=
  tx_spec g k (m / nx g) (m `mod` nx g).
Definition x2_spec (g : Grid) (k : list (list Q)) (m : nat) : Q :=
  tx_spec g k (m / nx g) (m `mod` nx g + 1).
Definition y1_spec (g : Grid) (k : list (list Q)) (m : nat) : Q :=
  ty_spec g k (m / nx g) (m `mod` nx g).
Definition y2_spec (g : Grid) (k : list (list Q)) (m : nat) : Q :=
  ty_spec g k (m / nx g + 1) (m `mod` nx g).

(** The five diagonals handed to [spdiags] and their offsets. *)
Definition transmi_data (g : Grid) (k : list (list Q)) : list (list Q) :=
  let n := ncell g in
  [tab n (λ m, - y2_spec g k m)%Q;
   tab n (λ m, - x2_spec g k m)%Q;
   tab n (λ m, x1_spec g k m + x2_spec g k m + y1_spec g k m + y2_spec g k m)%Q;
   tab n (λ m, - x1_spec g k m)%Q;
   tab n (λ m, - y1_spec g k m)%Q].

Definition penta (nx : nat) : list Z :=
  [(- Z.of_nat nx)%Z; (-1)%Z; 0%Z; 1%Z; Z.of_nat nx].

(** The entry [(r, c)] of the transmissibility matrix: the five-point
    stencil read off the diagonals. *)
Definition transmi_entry (g : Grid) (k : list (list Q)) (r c : nat) : Q :=
  if decide (c + nx g = r) then (- y2_spec g k c)%Q
  else if decide (c + 1 = r) then (- x2_spec g k c)%Q
  else if decide (c = r)
       then (x1_spec g k c + x2_spec g k c + y1_spec g k c + y2_spec g k c)%Q
  else if decide (c = r + 1) then (- x1_spec g k c)%Q
  else if decide (c = r + nx g) then (- y1_spec g k c)%Q
  else 0%Q.

(** The matrix [spdiags] builds from these diagonals. *)
Definition transmi_mat (g : Grid) (k : list (list Q)) : csr :=
  Csr (ncell g)
    ((λ r, dia_row (ncell g) r (penta (nx g)) (transmi_data g k))
       <$> seq 0 (ncell g)).

(** ** Example inputs *)

Definition ones2 (r c : nat) : list (list Q) := replicate r (replicate c 1%Q).

Definition grid_1x1 : Grid := mkGrid 1 1 1 1 1 1 1 1.
Definition grid_2x2 : Grid := mkGrid 2 2 1 1 4 (1 # 2) (1 # 2) (1 # 4).
Definition grid_3x3 : Grid := mkGrid 3 3 1 1 9 (1 # 3) (1 # 3) (1 # 9).

(** The attribute dictionary of [PressureSolver(Grid(1,1), [[1.]], [0.])]. *)
Definition solver_1x1 (bc : option value) : gmap string value :=
  let self := <["grid" := VGrid grid_1x1]> (∅ : gmap string value) in
  let self := <["_PressureSolver__k" := VArr2 [[1%Q]]]> self in
  let self := <["q" := VArr1 [0%Q]]> self in
  let self := match bc with
              | Some v => <["_PressureSolver__diriBC" := v]> self
              | None => self
              end in
  let self := <["mobi_fn" := VNone]> self in
  let self := <["s" := VNone]> self in
  let self := <["p" := VNone]> self in
  <["v" := VNone]> self.

Definition grid_2x3 : Grid := mkGrid 2 3 1 1 6 (1 # 2) (1 # 3) (1 # 6).
Definition grid_1x2 : Grid := mkGrid 1 2 1 1 2 1 (1 # 2) (1 # 2).
Definition grid_1x3 : Grid := mkGrid 1 3 1 1 3 1 (1 # 3) (1 # 3).

Definition k_2x3 : list (list Q) := [[1; 2]; [3; 4]; [5; 6]]%Q.
Definition k_2x2 : list (list Q) := [[1; 3]; [2; 5]]%Q.

(** A 2 by 2 system and the result of pinning its cell 0 to the value 5. *)
Definition mat_2 : csr :=
  Csr 2 [{[0 := 2%Q; 1 := (-2)%Q]}; {[0 := (-2)%Q; 1 := 2%Q]}].
Definition mat_2_pinned : csr :=
  Csr 2 [{[0 := 1%Q]}; {[0 := (-2)%Q; 1 := 2%Q]}].

(** Row [r] of the product [mat @ p]. *)
Definition matvec (m : csr) (p : list Q) (r : nat) : Q :=
  Qsum ((λ c, csr_get m r c * at1 p c)%Q <$> seq 0 (ncols m)).

(** ** Proof automation *)

(** Case analysis on the first computation of a chain of binds, for goals
    stating that the chain raises. *)
Ltac bind_raises :=
  match goal with
  | |- ∃ e, (?r ≫= _) = Err e =>
      let x := fresh in
      let E := fresh in
      destruct r as [x|] eqn:E;
        [try discriminate E; change (Ok x ≫= ?f) with (f x); cbv beta zeta
        |by eexists]
  | |- ∃ e, (let '(_, _) := ?p in _) = Err e => destruct p
  | |- ∃ e, (match ?p with (_, _) => _ end) = Err e => destruct p
  end.

(** Distinctness of an explicit list of integers. *)
Ltac nodup_lia :=
  repeat (apply NoDup_cons; split; [rewrite ?elem_of_cons, elem_of_nil; lia|]);
  apply NoDup_nil_2.

(** ** Pins inside a system *)

(** Every pin of the list lies inside the system [(mat, q)]. *)
Definition pins_in_range (mat : csr) (q : list Q) (diriBC : list (nat * Q)) : Prop :=
  Forall (λ iv : nat * Q, iv.1 < nrows mat ∧ iv.1 < ncols mat ∧ iv.1 < length q)
    diriBC.

#[global] Instance pins_in_range_dec mat q diriBC :
  Decision (pins_in_range mat q diriBC).
Proof. unfold pins_in_range. apply _. Defined.

(** ** Five-diagonal matrices in closed form *)

(** The entry [(r, c)] of the matrix [spdiags] builds from five diagonals
    [D1 .. D5] with offsets [-w, -1, 0, 1, w], each indexed by the column. *)
Definition penta_entry (w : nat) (D1 D2 D3 D4 D5 : nat → Q) (r c : nat) : Q :=
  if decide (c + w = r) then D1 c
  else if decide (c + 1 = r) then D2 c
  else if decide (c = r) then D3 c
  else if decide (c = r + 1) then D4 c
  else if decide (c = r + w) then D5 c
  else 0%Q.

Definition penta_mat (n w : nat) (D1 D2 D3 D4 D5 : nat → Q) : csr :=
  Csr n ((λ r, dia_row n r (penta w) [tab n D1; tab n D2; tab n D3; tab n D4; tab n D5])
           <$> seq 0 n).

(** ** The upwind system in closed form *)

(** The split face fluxes of cell [m]: negative part on the west and south
    faces, positive part on the east and north faces. *)
Definition cx1 (g : Grid) (vx : list (list Q)) (m : nat) : Q :=
  Qmin0 (at2 vx (m / nx g) (m `mod` nx g)).
Definition cx2 (g : Grid) (vx : list (list Q)) (m : nat) : Q :=
  Qmax0 (at2 vx (m / nx g) (m `mod` nx g + 1)).
Definition cy1 (g : Grid) (vy : list (list Q)) (m : nat) : Q :=
  Qmin0 (at2 vy (m / nx g) (m `mod` nx g)).
Definition cy2 (g : Grid) (vy : list (list Q)) (m : nat) : Q :=
  Qmax0 (at2 vy (m / nx g + 1) (m `mod` nx g)).

Definition convecti_mat (g : Grid) (vx vy : list (list Q)) : csr :=
  penta_mat (ncell g) (nx g)
    (λ m, - cy2 g vy m)%Q
    (λ m, - cx2 g vx m)%Q
    (λ m, cx2 g vx m - cx1 g vx m + cy2 g vy m - cy1 g vy m)%Q
    (cx1 g vx)
    (cy1 g vy).

(** ** A solver for the examples *)

(** A solver that answers [x0] on the systems [x0] solves and fails on the
    others. *)
Definition check_solve (x0 : list Q) (mat : csr) (b : list Q) : result (list Q) :=
  if forallb (λ r, Qeq_bool (matvec mat x0 r) (at1 b r)) (seq 0 (nrows mat))
  then Ok x0 else Err ValueError.

(** A solver object on the 2 by 2 grid with unit permeability, a unit source
    in cell 3 and the pressure pinned to zero in cell 0. *)
Definition solver_2x2 : gmap string value :=
  let self := <["grid" := VGrid grid_2x2]> (∅ : gmap string value) in
  let self := <["_PressureSolver__k" := VArr2 (ones2 2 2)]> self in
  let self := <["q" := VArr1 [0; 0; 0; 1]%Q]> self in
  let self := <["_PressureSolver__diriBC" := VPins [(0, 0%Q)]]> self in
  let self := <["mobi_fn" := VNone]> self in
  let self := <["s" := VNone]> self in
  let self := <["p" := VNone]> self in
  <["v" := VNone]> self.

Definition p_2x2 : list Q := [0; 1 # 2; 1 # 2; 1]%Q.

(** ** The off-diagonal entries of a cell's row *)


(** ** [transmi] on binary64 numbers

    The assembly of lines 142-163 once more, on IEEE 754 binary64 values
    with the operations of the processor: every [+], [*], [/] rounds as
    numpy's does.  The grid is given by [nx], [ny] and the cell sizes
    [dx = lx/nx], [dy = ly/ny] of [Grid.__init__]. *)

Definition b64 : Set := PrimFloat.float.

(** [float(n)] of a Python integer. *)
Definition b64_of_nat (n : nat) : b64 :=
  PrimFloat.of_uint63 (Uint63.of_Z (Z.of_nat n)).

Record csr64 : Type := Csr64 {
  ncols64 : nat;
  rows64 : list (gmap nat b64)
}.

Definition csr64_get (m : csr64) (r c : nat) : b64 :=
  default PrimFloat.zero (default ∅ (rows64 m !! r) !! c).


Definition offdiag_wesn64 (mat : csr64) (w h i j : nat) : b64 :=
  let m := i * w + j in
  let get (b : bool) (c : nat) := if b then csr64_get mat m c else PrimFloat.zero in
  PrimFloat.add
    (PrimFloat.add
       (PrimFloat.add (get (bool_decide (1 ≤ j)) (m - 1))
                      (get (bool_decide (j + 1 < w)) (m + 1)))
       (get (bool_decide (1 ≤ i)) (m - w)))
    (get (bool_decide (i + 1 < h)) (m + w)).

Definition py_div64 (a b : b64) : result b64 :=
  if PrimFloat.eqb b PrimFloat.zero then Err ZeroDivisionError
  else Ok (PrimFloat.div a b).

Fixpoint dia_row64 (n r : nat) (diags : list Z) (data : list (list b64))
  : gmap nat b64 :=
  match diags, data with
  | off :: diags', d :: data' =>
      let rest := dia_row64 n r diags' data' in
      let c := (Z.of_nat r + off)%Z in
      if decide (0 ≤ c < Z.of_nat n)%Z then
        match d !! Z.to_nat c with
        | Some v => if PrimFloat.eqb v PrimFloat.zero then rest
                    else <[Z.to_nat c := v]> rest
        | None => rest
        end
      else rest
  | _, _ => ∅
  end.

Definition spdiags64 (data : list (list b64)) (diags : list Z) (m n : nat)
  : result csr64 :=
  if decide (length data = length diags ∧ NoDup diags)
  then Ok (Csr64 n ((λ r, dia_row64 n r diags data) <$> seq 0 m))
  else Err ValueError.

Definition reshape1_64 (n : nat) (a : list (list b64)) : result (list b64) :=
  let l := mjoin a in
  if decide (length l = n) then Ok l else Err ValueError.

Definition transmi64 (nx ny : nat) (dx dy : b64) (k : list (list b64))
  : result (csr64 * list (list b64) * list (list b64)) :=
  let n := nx * ny in
  let kinv := fmap (M:=list) (PrimFloat.div PrimFloat.one) <$> k in
  ax ← py_div64 (PrimFloat.mul PrimFloat.two dy) dx;
  let tx := replicate ny (replicate (nx + 1) PrimFloat.zero) in
  ay ← py_div64 (PrimFloat.mul PrimFloat.two dx) dy;
  let ty := replicate (ny + 1) (replicate nx PrimFloat.zero) in
  let over a := zip_with (zip_with (λ u v, PrimFloat.div a (PrimFloat.add u v))) in
  let tx := set_cols tx 1 nx (over ax (cols kinv 0 (nx - 1)) (cols kinv 1 nx)) in
  let ty := set_slice ty 1 ny (over ay (slice kinv 0 (ny - 1)) (slice kinv 1 ny)) in
  x1 ← reshape1_64 n (cols tx 0 nx);
  x2 ← reshape1_64 n (cols tx 1 (nx + 1));
  y1 ← reshape1_64 n (slice ty 0 ny);
  y2 ← reshape1_64 n (slice ty 1 (ny + 1));
  let add := zip_with PrimFloat.add in
  let neg := fmap (M:=list) PrimFloat.opp in
  let data := [neg y2; neg x2; add (add (add x1 x2) y1) y2; neg x1; neg y1] in
  let diags := [(- Z.of_nat nx)%Z; (-1)%Z; 0%Z; 1%Z; Z.of_nat nx] in
  mat ← spdiags64 data diags n n;
  Ok (mat, tx, ty).

(** [transmi(Grid(3, 2), array([[1., 2., 3.], [4., 5., 6.]]))]. *)
Definition k64_3x2 : list (list b64) :=
  fmap (M:=list) b64_of_nat <$> [[1; 2; 3]; [4; 5; 6]].

Definition transmi64_3x2 : result (csr64 * list (list b64) * list (list b64)) :=
  transmi64 3 2 (PrimFloat.div PrimFloat.one (b64_of_nat 3))
                (PrimFloat.div PrimFloat.one (b64_of_nat 2)) k64_3x2.

(** * Properties *)

(** * Properties of [impose_diriBC] *)

Lemma pin_row_lookup (r c : nat) (row : gmap nat Q) :
  pin_row r row !! c =
    if decide (r = c) then Some 1%Q else (λ _, 0%Q) <$> row !! c.
Proof.
  unfold pin_row. rewrite lookup_insert. case_decide; [done|].
  by rewrite lookup_fmap.
Qed.

Lemma pin_row_idemp (r : nat) (row : gmap nat Q) :
  pin_row r (pin_row r row) = pin_row r row.
Proof.
  apply map_eq; intros c. rewrite !pin_row_lookup.
  case_decide; [done|]. by destruct (row !! c).
Qed.

Lemma filter_pin_row (r : nat) (row : gmap nat Q) :
  filter (λ cv : nat * Q, nonzero cv.2) (pin_row r row) = {[r := 1%Q]}.
Proof.
  apply map_eq; intros c.
  destruct (decide (r = c)) as [->|Hne].
  - rewrite lookup_singleton_eq. apply map_lookup_filter_Some.
    split; [rewrite pin_row_lookup; by case_decide|].
    unfold nonzero; simpl. intros Hz; discriminate Hz.
  - rewrite lookup_singleton_ne by done.
    apply map_lookup_filter_None. right. intros v Hv.
    rewrite pin_row_lookup in Hv. case_decide; [done|].
    destruct (row !! c); simplify_eq/=. unfold nonzero; simpl.
    intros Hz; by apply Hz.
Qed.

Lemma filter_nonzero_idemp (row : gmap nat Q) :
  filter (λ cv : nat * Q, nonzero cv.2) (filter (λ cv : nat * Q, nonzero cv.2) row)
  = filter (λ cv : nat * Q, nonzero cv.2) row.
Proof.
  apply map_filter_id. intros c v Hv.
  apply map_lookup_filter_Some in Hv. tauto.
Qed.

Lemma row_get_filter (row : gmap nat Q) (c : nat) :
  (row_get (filter (λ cv : nat * Q, nonzero cv.2) row) c == row_get row c)%Q.
Proof.
  unfold row_get.
  destruct (row !! c) as [v|] eqn:Hv.
  - destruct (decide (nonzero v)) as [Hnz|Hz].
    + erewrite (proj2 (map_lookup_filter_Some _ _ _ _)); [reflexivity|done].
    + erewrite (proj2 (map_lookup_filter_None _ _ _)).
      * simpl. unfold nonzero in Hz. destruct (Qeq_dec v 0) as [->|]; [reflexivity|tauto].
      * right. intros v' Hv'. simplify_eq. done.
  - erewrite (proj2 (map_lookup_filter_None _ _ _)); [reflexivity|by left].
Qed.

Lemma pinned_rows_length rws pins : length (pinned_rows rws pins) = length rws.
Proof. unfold pinned_rows. by rewrite length_imap. Qed.

Lemma pinned_rows_lookup rws pins r :
  pinned_rows rws pins !! r =
    (λ row, if decide (r ∈ pins.*1) then pin_row r row else row) <$> rws !! r.
Proof. unfold pinned_rows. by rewrite list_lookup_imap. Qed.

Lemma pinned_rows_cons rws i val pins :
  pinned_rows (alter (pin_row i) i rws) pins = pinned_rows rws ((i, val) :: pins).
Proof.
  apply list_eq; intros r. rewrite !pinned_rows_lookup.
  assert (Hmem : r ∈ ((i, val) :: pins).*1 ↔ r = i ∨ r ∈ pins.*1).
  { rewrite fmap_cons. simpl. apply elem_of_cons. }
  destruct (decide (i = r)) as [->|Hne].
  - rewrite list_lookup_alter_eq. destruct (rws !! r) as [row|]; [|done].
    simpl. f_equal.
    repeat case_decide; try done; try (by rewrite pin_row_idemp);
      exfalso; intuition.
  - rewrite list_lookup_alter_ne by done.
    destruct (rws !! r) as [row|]; [|done].
    simpl. f_equal.
    repeat case_decide; try done; exfalso; intuition.
Qed.

Lemma pinned_q_length q pins : length (pinned_q q pins) = length q.
Proof.
  revert q; induction pins as [|[i v] pins IH]; intros q; [done|].
  simpl. by rewrite IH, length_insert.
Qed.

Lemma pinned_q_lookup q pins j :
  pinned_q q pins !! j =
    match last_pin pins j with
    | Some v => if decide (j < length q) then Some v else None
    | None => q !! j
    end.
Proof.
  revert q; induction pins as [|[i v] pins IH]; intros q; [done|].
  simpl. rewrite IH, length_insert.
  destruct (last_pin pins j) as [w|]; [done|].
  destruct (decide (i = j)) as [->|Hne].
  - case_decide.
    + by rewrite list_lookup_insert_eq.
    + rewrite list_insert_ge by lia. apply lookup_ge_None. lia.
  - by rewrite list_lookup_insert_ne.
Qed.

Lemma last_pin_None pins j : j ∉ pins.*1 → last_pin pins j = None.
Proof.
  induction pins as [|[i v] pins IH]; [done|]. simpl. intros Hj.
  apply not_elem_of_cons in Hj as [Hne Hj].
  rewrite IH by done. by rewrite decide_False.
Qed.

Lemma last_pin_app pre i val post :
  i ∉ post.*1 → last_pin (pre ++ (i, val) :: post) i = Some val.
Proof.
  intros Hi. induction pre as [|[i' v'] pre IH]; simpl.
  - rewrite last_pin_None by done. by rewrite decide_True.
  - by rewrite IH.
Qed.

(** The loop succeeds on in-range pins and computes the closed forms. *)
Lemma impose_loop_ok (mat : csr) (q : list Q) (pins : list (nat * Q)) :
  (∀ i, i ∈ pins.*1 → i < nrows mat ∧ i < ncols mat ∧ i < length q) →
  impose_loop mat q pins
  = Ok (Csr (ncols mat) (pinned_rows (rows mat) pins), pinned_q q pins).
Proof.
  revert mat q; induction pins as [|[i v] pins IH]; intros [nc rws] q Hin.
  - simpl. unfold pinned_rows. do 3 f_equal.
    apply list_eq; intros r. rewrite list_lookup_imap.
    by destruct (rws !! r).
  - destruct (Hin i) as (Hr & Hc & Hq); [rewrite fmap_cons; apply elem_of_cons; by left|].
    unfold nrows in *; simpl in *.
    unfold csr_row_set_nz_to_val, nrows. simpl.
    rewrite decide_True by done. simpl.
    unfold csr_setitem, nrows. simpl. rewrite length_alter.
    rewrite decide_True by done. simpl.
    unfold vec_setitem. rewrite decide_True by done. simpl.
    rewrite IH.
    + simpl. rewrite list_alter_alter_eq.
      change (insert i 1%Q ∘ fmap (λ _ : Q, 0%Q)) with (pin_row i).
      by rewrite (pinned_rows_cons _ _ v).
    + intros j Hj. unfold nrows; simpl.
      rewrite !length_alter, length_insert.
      apply Hin. apply elem_of_cons. by right.
Qed.

Lemma csr_get_eliminate_zeros (m : csr) (r c : nat) :
  (csr_get (eliminate_zeros m) r c == csr_get m r c)%Q.
Proof.
  unfold csr_get, csr_row, eliminate_zeros. simpl.
  rewrite list_lookup_fmap. destruct (rows m !! r) as [row|]; simpl.
  - apply row_get_filter.
  - reflexivity.
Qed.

(** [impose_diriBC] in closed form, on pins inside the system. *)
Lemma impose_diriBC_ok (mat : csr) (q : list Q) (pins : list (nat * Q)) :
  (∀ i, i ∈ pins.*1 → i < nrows mat ∧ i < ncols mat ∧ i < length q) →
  impose_diriBC mat q pins
  = Ok (eliminate_zeros (Csr (ncols mat) (pinned_rows (rows mat) pins)),
        pinned_q q pins).
Proof. intros Hin. unfold impose_diriBC. by rewrite impose_loop_ok. Qed.

(** C2.  On a system of [n] cells and pins inside [0, n), [impose_diriBC]
    returns; every pinned row holds exactly the stored entry [1] on the
    diagonal, so [mat[i,i] = 1] and every other entry of the row is zero; the
    right-hand side at a pinned cell is the value of the last pair for that
    cell; the rows and right-hand side entries of cells that are not pinned
    keep their values (such a row only loses the zeros it stored
    explicitly). *)
Theorem impose_diriBC_spec (n : nat) (mat : csr) (q : list Q)
    (diriBC : list (nat * Q)) :
  nrows mat = n → ncols mat = n → length q = n →
  (∀ i val, (i, val) ∈ diriBC → i < n) →
  ∃ mat' q',
    impose_diriBC mat q diriBC = Ok (mat', q') ∧
    nrows mat' = n ∧ ncols mat' = n ∧ length q' = n ∧
    (∀ i, i ∈ diriBC.*1 →
       csr_row mat' i = {[i := 1%Q]} ∧
       csr_get mat' i i = 1%Q ∧
       (∀ c, c ≠ i → csr_get mat' i c = 0%Q)) ∧
    (∀ pre i val post,
       diriBC = pre ++ (i, val) :: post → i ∉ post.*1 → q' !! i = Some val) ∧
    (∀ r, r ∉ diriBC.*1 →
       csr_row mat' r = filter (λ cv : nat * Q, nonzero cv.2) (csr_row mat r) ∧
       (∀ c, (csr_get mat' r c == csr_get mat r c)%Q) ∧
       q' !! r = q !! r).
Proof.
  intros Hrows Hcols Hq Hrange.
  assert (Hin : ∀ i, i ∈ diriBC.*1 → i < n).
  { intros i (iv & -> & Hiv)%list_elem_of_fmap. destruct iv as [i v].
    by apply (Hrange i v). }
  eexists _, _. split.
  { apply impose_diriBC_ok. intros i Hi. specialize (Hin i Hi). lia. }
  split; [|split; [|split; [|split; [|split]]]].
  - unfold nrows, eliminate_zeros. simpl.
    rewrite length_fmap, pinned_rows_length. exact Hrows.
  - done.
  - by rewrite pinned_q_length.
  - intros i Hi.
    assert (Hrow : csr_row (eliminate_zeros (Csr (ncols mat) (pinned_rows (rows mat) diriBC))) i
                   = {[i := 1%Q]}).
    { unfold csr_row, eliminate_zeros. simpl.
      rewrite list_lookup_fmap, pinned_rows_lookup.
      destruct (lookup_lt_is_Some_2 (rows mat) i) as [row Hrow].
      { specialize (Hin i Hi). unfold nrows in Hrows. lia. }
      rewrite Hrow. simpl. rewrite decide_True by done.
      apply filter_pin_row. }
    split; [exact Hrow|]. unfold csr_get. rewrite Hrow. unfold row_get. split.
    + by rewrite lookup_singleton_eq.
    + intros c Hc. by rewrite lookup_singleton_ne.
  - intros pre i val post -> Hpost.
    rewrite pinned_q_lookup, last_pin_app by done.
    rewrite decide_True; [done|].
    rewrite Hq. apply Hin. rewrite fmap_app, fmap_cons.
    apply elem_of_app. right. apply elem_of_cons. by left.
  - intros r Hr. split; [|split].
    + unfold csr_row, eliminate_zeros. simpl.
      rewrite list_lookup_fmap, pinned_rows_lookup.
      destruct (rows mat !! r) as [row|]; simpl.
      * by rewrite decide_False by done.
      * by rewrite map_filter_empty.
    + intros c. rewrite csr_get_eliminate_zeros.
      unfold csr_get, csr_row. simpl. rewrite pinned_rows_lookup.
      destruct (rows mat !! r) as [row|]; simpl; [|reflexivity].
      rewrite decide_False by done. reflexivity.
    + by rewrite pinned_q_lookup, last_pin_None.
Qed.

Lemma impose_diriBC_spec_witness :
  ∃ mat' q',
    impose_diriBC mat_2 [0%Q; 0%Q] [(0, 5%Q); (0, 7%Q)] = Ok (mat', q') ∧
    csr_row mat' 0 = {[0 := 1%Q]} ∧
    q' !! 0 = Some 7%Q ∧
    q' !! 1 = Some 0%Q.
Proof.
  destruct (impose_diriBC_spec 2 mat_2 [0%Q; 0%Q] [(0, 5%Q); (0, 7%Q)])
    as (mat' & q' & Hret & _ & _ & _ & Hpin & Hlast & Hother).
  - reflexivity.
  - reflexivity.
  - reflexivity.
  - intros i val Hin.
    repeat (apply elem_of_cons in Hin as [[= -> _]|Hin]; [lia|]).
    by apply elem_of_nil in Hin.
  - exists mat', q'. split; [exact Hret|]. split; [|split].
    + apply Hpin. simpl. apply elem_of_cons. by left.
    + apply (Hlast [(0, 5%Q)] 0 7%Q []); [reflexivity|]. apply not_elem_of_nil.
    + destruct (Hother 1) as (_ & _ & ->); [|reflexivity].
      intros Hin. simpl in Hin.
      repeat (apply elem_of_cons in Hin as [Hin|Hin]; [lia|]).
      by apply elem_of_nil in Hin.
Defined.

(** A loop that returned had every pin inside the system. *)
Lemma impose_loop_inv (mat : csr) (q : list Q) (pins : list (nat * Q)) r :
  impose_loop mat q pins = Ok r →
  ∀ i, i ∈ pins.*1 → i < nrows mat ∧ i < ncols mat ∧ i < length q.
Proof.
  revert mat q; induction pins as [|[i v] pins IH]; intros [nc rws] q Hok j Hj.
  - by apply elem_of_nil in Hj.
  - simpl in Hok. unfold csr_row_set_nz_to_val, nrows in Hok. simpl in Hok.
    destruct (decide (i < length rws)) as [Hr|]; [simpl in Hok|done].
    unfold csr_setitem, nrows in Hok. simpl in Hok.
    rewrite length_alter in Hok.
    destruct (decide (i < length rws ∧ i < nc)) as [[_ Hc]|]; [simpl in Hok|done].
    unfold vec_setitem in Hok.
    destruct (decide (i < length q)) as [Hq|]; [simpl in Hok|done].
    apply elem_of_cons in Hj as [->|Hj]; [done|].
    specialize (IH _ _ Hok j Hj). unfold nrows in *. simpl in *.
    rewrite !length_alter, length_insert in IH. done.
Qed.

Lemma pinned_rows_filter_idemp rws pins :
  filter (λ cv : nat * Q, nonzero cv.2) <$>
    pinned_rows (filter (λ cv : nat * Q, nonzero cv.2) <$> pinned_rows rws pins) pins
  = filter (λ cv : nat * Q, nonzero cv.2) <$> pinned_rows rws pins.
Proof.
  apply list_eq; intros r.
  rewrite !list_lookup_fmap, !pinned_rows_lookup, list_lookup_fmap,
    pinned_rows_lookup.
  destruct (rws !! r) as [row|]; [simpl|done]. f_equal.
  case_decide.
  - by rewrite !filter_pin_row.
  - apply filter_nonzero_idemp.
Qed.

Lemma pinned_q_idemp q pins : pinned_q (pinned_q q pins) pins = pinned_q q pins.
Proof.
  apply list_eq; intros j.
  rewrite (pinned_q_lookup (pinned_q q pins)), pinned_q_length.
  rewrite (pinned_q_lookup q pins).
  by destruct (last_pin pins j).
Qed.

(** C9.  Imposing the same pins a second time, on the matrix and right-hand
    side the first imposition returned, returns them unchanged: the same
    stored entries and the same right-hand side. *)
Theorem impose_diriBC_idempotent (mat mat' : csr) (q q' : list Q)
    (diriBC : list (nat * Q)) :
  impose_diriBC mat q diriBC = Ok (mat', q') →
  impose_diriBC mat' q' diriBC = Ok (mat', q').
Proof.
  unfold impose_diriBC at 1. intros Hok.
  destruct (impose_loop mat q diriBC) as [[m1 q1]|] eqn:Hloop; [|done].
  pose proof (impose_loop_inv _ _ _ _ Hloop) as Hin.
  rewrite impose_loop_ok in Hloop by done.
  simpl in Hok. simplify_eq.
  rewrite impose_diriBC_ok.
  - unfold eliminate_zeros. simpl.
    by rewrite pinned_rows_filter_idemp, pinned_q_idemp.
  - intros i Hi. destruct (Hin i Hi) as (Hr & Hc & Hq).
    unfold nrows, eliminate_zeros in *. simpl.
    rewrite length_fmap, pinned_rows_length, pinned_q_length. done.
Qed.

Lemma impose_diriBC_idempotent_witness :
  impose_diriBC mat_2 [0%Q; 0%Q] [(0, 5%Q)] = Ok (mat_2_pinned, [5%Q; 0%Q]) ∧
  impose_diriBC mat_2_pinned [5%Q; 0%Q] [(0, 5%Q)] = Ok (mat_2_pinned, [5%Q; 0%Q]).
Proof.
  assert (H1 : impose_diriBC mat_2 [0%Q; 0%Q] [(0, 5%Q)]
               = Ok (mat_2_pinned, [5%Q; 0%Q])).
  { vm_compute. reflexivity. }
  split; [exact H1|]. exact (impose_diriBC_idempotent _ _ _ _ _ H1).
Defined.

(** * Tabulated arrays *)

Section Tab.
Context {A : Type}.
Implicit Types (F G : nat → A) (l : list A).

Lemma length_tab n F : length (tab n F) = n.
Proof. unfold tab. by rewrite length_fmap, length_seq. Qed.

Lemma tab_lookup n F j : j < n → tab n F !! j = Some (F j).
Proof. intros Hj. unfold tab. by rewrite list_lookup_fmap, lookup_seq_lt. Qed.

Lemma tab_lookup_ge n F j : n ≤ j → tab n F !! j = None.
Proof. intros Hj. apply lookup_ge_None. by rewrite length_tab. Qed.

Lemma tab_intro n F l :
  length l = n → (∀ j, j < n → l !! j = Some (F j)) → l = tab n F.
Proof.
  intros Hlen Hl. apply list_eq; intros j.
  destruct (decide (j < n)).
  - by rewrite Hl, tab_lookup.
  - rewrite tab_lookup_ge by lia. apply lookup_ge_None. lia.
Qed.

Lemma tab_ext n F G : (∀ j, j < n → F j = G j) → tab n F = tab n G.
Proof.
  intros HFG. apply tab_intro; [apply length_tab|].
  intros j Hj. by rewrite tab_lookup, HFG.
Qed.

Lemma replicate_tab n (x : A) : replicate n x = tab n (λ _, x).
Proof.
  apply tab_intro; [apply length_replicate|].
  intros j Hj. by apply lookup_replicate_2.
Qed.

Lemma slice_tab n F lo hi :
  hi ≤ n → slice (tab n F) lo hi = tab (hi - lo) (λ j, F (lo + j)).
Proof.
  intros Hhi. unfold slice. apply tab_intro.
  - rewrite length_take, length_drop, length_tab. lia.
  - intros j Hj. rewrite lookup_take_lt, lookup_drop by done.
    apply tab_lookup. lia.
Qed.

Lemma set_slice_tab n F lo hi (V : nat → A) :
  lo ≤ hi → hi ≤ n →
  set_slice (tab n F) lo hi (tab (hi - lo) V)
  = tab n (λ j, if decide (lo ≤ j < hi) then V (j - lo) else F j).
Proof.
  intros Hlo Hhi. unfold set_slice. apply tab_intro.
  - rewrite !length_app, length_take, length_drop, !length_tab. lia.
  - intros j Hj.
    destruct (decide (j < lo)) as [Hjlo|Hjlo].
    + rewrite lookup_app_l by (rewrite length_take, length_tab; lia).
      rewrite lookup_take_lt, tab_lookup by lia.
      by rewrite decide_False by lia.
    + rewrite lookup_app_r by (rewrite length_take, length_tab; lia).
      rewrite length_take, length_tab, Nat.min_l by lia.
      destruct (decide (j < hi)) as [Hjhi|Hjhi].
      * rewrite lookup_app_l by (rewrite length_tab; lia).
        rewrite tab_lookup by lia. by rewrite decide_True by lia.
      * rewrite lookup_app_r by (rewrite length_tab; lia).
        rewrite length_tab, lookup_drop, tab_lookup by lia.
        rewrite decide_False by lia. f_equal. f_equal. lia.
Qed.
End Tab.

Lemma fmap_tab {A B : Type} (g : A → B) n (F : nat → A) :
  g <$> tab n F = tab n (λ j, g (F j)).
Proof. unfold tab. by rewrite <- list_fmap_compose. Qed.

Lemma zip_with_tab {A B C : Type} (f : A → B → C) n (F : nat → A) (G : nat → B) :
  zip_with f (tab n F) (tab n G) = tab n (λ j, f (F j) (G j)).
Proof.
  apply tab_intro.
  - rewrite length_zip_with, !length_tab. lia.
  - intros j Hj. by rewrite lookup_zip_with, !tab_lookup.
Qed.

(** Row-major flattening of a tabulated two-dimensional array. *)
Lemma mjoin_tab {A : Type} r c (F : nat → nat → A) :
  0 < c →
  mjoin (tab r (λ i, tab c (F i))) = tab (r * c) (λ m, F (m / c) (m `mod` c)).
Proof.
  intros Hc.
  assert (Hall : Forall (λ l : list A, length l = c) (tab r (λ i, tab c (F i)))).
  { unfold tab at 1. apply Forall_fmap, Forall_forall. intros i _. simpl. apply length_tab. }
  apply tab_intro.
  - rewrite length_join, (sum_list_fmap_same c) by done. by rewrite length_tab.
  - intros m Hm.
    rewrite (Nat.div_mod_eq m c) at 1. rewrite (Nat.mul_comm c).
    apply (join_lookup_Some_same_length' c); [done|apply Nat.mod_upper_bound; lia|].
    eexists. split.
    + apply tab_lookup. apply Nat.Div0.div_lt_upper_bound. lia.
    + apply tab_lookup. apply Nat.mod_upper_bound. lia.
Qed.

(** An array of a given shape is the tabulation of its entries. *)
Lemma tab_of_list (l : list Q) n : length l = n → l = tab n (at1 l).
Proof.
  intros Hlen. apply tab_intro; [done|]. intros j Hj. unfold at1.
  destruct (lookup_lt_is_Some_2 l j) as [x ->]; [lia|done].
Qed.

Lemma tab_of_shape (a : list (list Q)) r c :
  has_shape r c a → a = tab r (λ i, tab c (at2 a i)).
Proof.
  intros [Hlen Hall]. apply tab_intro; [done|]. intros i Hi.
  destruct (lookup_lt_is_Some_2 a i) as [row Hrow]; [lia|].
  rewrite Hrow. f_equal. unfold at2. rewrite Hrow. simpl.
  apply tab_of_list. by apply (Forall_lookup_1 _ _ _ _ Hall Hrow).
Qed.

Lemma at1_tab n (F : nat → Q) j : j < n → at1 (tab n F) j = F j.
Proof. intros Hj. unfold at1. by rewrite tab_lookup. Qed.

Lemma at2_tab r c (F : nat → nat → Q) i j :
  i < r → j < c → at2 (tab r (λ i, tab c (F i))) i j = F i j.
Proof. intros Hi Hj. unfold at2. rewrite tab_lookup by done. by apply at1_tab. Qed.

(** * Sums of rationals *)

Lemma Qsum_cons (x : Q) (l : list Q) : Qsum (x :: l) = (x + Qsum l)%Q.
Proof. reflexivity. Qed.

Lemma Qsum_ext {A : Type} (f g : A → Q) (l : list A) :
  (∀ x, x ∈ l → (f x == g x)%Q) → (Qsum (f <$> l) == Qsum (g <$> l))%Q.
Proof.
  induction l as [|a l IH]; intros Hfg; [reflexivity|].
  rewrite !fmap_cons, !Qsum_cons.
  rewrite (Hfg a) by (apply elem_of_cons; by left).
  rewrite IH; [reflexivity|]. intros x Hx. apply Hfg, elem_of_cons. by right.
Qed.

Lemma Qsum_plus {A : Type} (f g : A → Q) (l : list A) :
  (Qsum ((λ x, f x + g x)%Q <$> l) == Qsum (f <$> l) + Qsum (g <$> l))%Q.
Proof.
  induction l as [|a l IH]; [reflexivity|].
  rewrite !fmap_cons, !Qsum_cons, IH. ring.
Qed.

(** A sum with a single non-zero term. *)
Lemma Qsum_single (V : nat → Q) (c0 : Z) (s n : nat) :
  (Qsum ((λ c, if decide (Z.of_nat c = c0) then V c else 0%Q) <$> seq s n)
   == if decide (Z.of_nat s ≤ c0 < Z.of_nat (s + n))%Z then V (Z.to_nat c0) else 0)%Q.
Proof.
  revert s; induction n as [|n IH]; intros s.
  - rewrite decide_False by lia. reflexivity.
  - cbn [seq]. rewrite fmap_cons, Qsum_cons, IH.
    destruct (decide (Z.of_nat s = c0)) as [<-|Hne].
    + rewrite decide_False by lia. rewrite decide_True by lia.
      rewrite Nat2Z.id. ring.
    + destruct (decide (Z.of_nat (S s) ≤ c0 < Z.of_nat (S s + n))%Z).
      * rewrite decide_True by lia. ring.
      * rewrite decide_False by lia. ring.
Qed.

(** * Properties of [spdiags] *)

Lemma row_get_empty c : row_get ∅ c = 0%Q.
Proof. unfold row_get. by rewrite lookup_empty. Qed.

Lemma dia_row_lookup_None n r diags data c :
  (∀ off, off ∈ diags → (Z.of_nat r + off ≠ Z.of_nat c)%Z) →
  dia_row n r diags data !! c = None.
Proof.
  revert data; induction diags as [|off diags IH]; intros data Hoff.
  - by destruct data.
  - destruct data as [|d data]; [done|]. simpl.
    assert (Hrest : dia_row n r diags data !! c = None).
    { apply IH. intros off' Hin. apply Hoff, elem_of_cons. by right. }
    assert (Hne : (Z.of_nat r + off ≠ Z.of_nat c)%Z).
    { apply Hoff, elem_of_cons. by left. }
    case_decide; [|done].
    destruct (d !! Z.to_nat (Z.of_nat r + off)); [|done].
    case_decide; [|done].
    rewrite lookup_insert_ne by lia. done.
Qed.

Lemma row_get_dia_row n r diags data c :
  NoDup diags →
  (row_get (dia_row n r diags data) c == dia_get n r diags data c)%Q.
Proof.
  revert data; induction diags as [|off diags IH]; intros data Hnd.
  - destruct data; simpl; rewrite row_get_empty; reflexivity.
  - destruct data as [|d data]; [simpl; rewrite row_get_empty; reflexivity|].
    apply NoDup_cons in Hnd as [Hoff Hnd]. simpl.
    destruct (decide ((Z.of_nat c = Z.of_nat r + off)%Z ∧ c < n)) as [[Hc Hn]|Hc].
    + assert (Hrest : dia_row n r diags data !! c = None).
      { apply dia_row_lookup_None. intros off' Hin Heq.
        assert (off' = off) by lia. by subst. }
      rewrite decide_True by lia.
      replace (Z.to_nat (Z.of_nat r + off)) with c by lia.
      unfold at1. destruct (d !! c) as [v|].
      * case_decide as Hv.
        -- unfold row_get. rewrite lookup_insert_eq. reflexivity.
        -- unfold row_get. rewrite Hrest. simpl. unfold nonzero in Hv.
           destruct (Qeq_dec v 0) as [->|]; [reflexivity|tauto].
      * unfold row_get. rewrite Hrest. reflexivity.
    + case_decide as Hrange; [|by apply IH].
      destruct (d !! Z.to_nat (Z.of_nat r + off)) as [v|]; [|by apply IH].
      case_decide; [|by apply IH].
      unfold row_get. rewrite lookup_insert_ne by lia. by apply IH.
Qed.

Lemma spdiags_ok data diags m n :
  length data = length diags → NoDup diags →
  spdiags data diags m n = Ok (Csr n ((λ r, dia_row n r diags data) <$> seq 0 m)).
Proof. intros Hlen Hnd. unfold spdiags. by rewrite decide_True. Qed.


Lemma csr_get_spdiags data diags m n r c :
  NoDup diags → r < m →
  (csr_get (Csr n ((λ r, dia_row n r diags data) <$> seq 0 m)) r c
   == dia_get n r diags data c)%Q.
Proof.
  intros Hnd Hr. unfold csr_get, csr_row. simpl.
  rewrite list_lookup_fmap, lookup_seq_lt by done. simpl.
  by apply row_get_dia_row.
Qed.

(** * Two-dimensional tabulations *)

Lemma zeros2_tab r c : zeros2 r c = tab r (λ _, tab c (λ _, 0%Q)).
Proof. unfold zeros2. by rewrite (replicate_tab c), (replicate_tab r). Qed.

Lemma map2d_tab f r c (F : nat → nat → Q) :
  map2d f (tab r (λ i, tab c (F i))) = tab r (λ i, tab c (λ j, f (F i j))).
Proof.
  unfold map2d. rewrite fmap_tab. apply tab_ext. intros i _. apply fmap_tab.
Qed.

Lemma cols_tab {A : Type} r c (F : nat → nat → A) lo hi :
  hi ≤ c →
  cols (tab r (λ i, tab c (F i))) lo hi
  = tab r (λ i, tab (hi - lo) (λ j, F i (lo + j))).
Proof.
  intros Hhi. unfold cols. rewrite fmap_tab. apply tab_ext.
  intros i _. by apply slice_tab.
Qed.

Lemma ew1_tab f n (F G : nat → Q) :
  ew1 f (tab n F) (tab n G) = tab n (λ j, f (F j) (G j)).
Proof. apply zip_with_tab. Qed.

Lemma neg_tab n (F : nat → Q) : neg (tab n F) = tab n (λ j, - F j)%Q.
Proof. apply fmap_tab. Qed.

Lemma ew2_tab f r c (F G : nat → nat → Q) :
  ew2 f (tab r (λ i, tab c (F i))) (tab r (λ i, tab c (G i)))
  = tab r (λ i, tab c (λ j, f (F i j) (G i j))).
Proof.
  unfold ew2. rewrite zip_with_tab. apply tab_ext. intros i _.
  apply zip_with_tab.
Qed.

Lemma set_cols_tab {A : Type} r c (F : nat → nat → A) lo hi (V : nat → nat → A) :
  lo ≤ hi → hi ≤ c →
  set_cols (tab r (λ i, tab c (F i))) lo hi (tab r (λ i, tab (hi - lo) (V i)))
  = tab r (λ i, tab c (λ j, if decide (lo ≤ j < hi) then V i (j - lo) else F i j)).
Proof.
  intros Hlo Hhi. unfold set_cols. rewrite zip_with_tab. apply tab_ext.
  intros i _. by apply set_slice_tab.
Qed.

Lemma reshape1_tab n r c (F : nat → nat → Q) :
  0 < c → n = r * c →
  reshape1 n (tab r (λ i, tab c (F i)))
  = Ok (tab n (λ m, F (m / c) (m `mod` c))).
Proof.
  intros Hc ->. unfold reshape1. rewrite mjoin_tab by done.
  by rewrite decide_True by apply length_tab.
Qed.

Lemma result_bind_Ok {A B : Type} (a : A) (f : A → result B) : Ok a ≫= f = f a.
Proof. reflexivity. Qed.

(** * Properties of [Grid] *)

Lemma grid_ok_inv (g : Grid) :
  grid_ok g →
  nx g ≠ 0 ∧ ny g ≠ 0 ∧ ncell g = nx g * ny g ∧
  dx g = (lx g / Qnat (nx g))%Q ∧ dy g = (ly g / Qnat (ny g))%Q ∧
  vol g = (dx g * dy g)%Q.
Proof.
  unfold grid_ok, Grid_init. case_decide as Hz; [done|].
  intros [= Hg]. rewrite <- Hg. simpl. repeat split; try done; lia.
Qed.

Lemma Qnat_pos n : n ≠ 0 → (0 < Qnat n)%Q.
Proof.
  intros Hn. unfold Qnat, Qlt. simpl. lia.
Qed.

Lemma cell_size_pos (g : Grid) :
  grid_ok g → (0 < lx g)%Q → (0 < ly g)%Q → (0 < dx g)%Q ∧ (0 < dy g)%Q.
Proof.
  intros (Hnx & Hny & _ & -> & -> & _)%grid_ok_inv Hlx Hly.
  split; apply Qlt_shift_div_l; try (by apply Qnat_pos); by rewrite Qmult_0_l.
Qed.

Lemma py_div_ok (a b : Q) : ¬ (b == 0)%Q → py_div a b = Ok (a / b)%Q.
Proof.
  intros Hb. unfold py_div. destruct (Qeq_bool b 0) eqn:E; [|done].
  by apply Qeq_bool_iff in E.
Qed.

(** * [transmi] in closed form *)

(** From two columns on, the five offsets are distinct. *)
Lemma penta_NoDup (n : nat) : 2 ≤ n → NoDup (penta n).
Proof. intros Hn. unfold penta. nodup_lia. Qed.

Section Transmi.
Variables (g : Grid) (k : list (list Q)).
Hypothesis Hg : grid_ok g.
Hypothesis Hlx : (0 < lx g)%Q.
Hypothesis Hly : (0 < ly g)%Q.
Hypothesis Hk : has_shape (ny g) (nx g) k.

Lemma transmi_tx :
  set_cols (zeros2 (ny g) (nx g + 1)) 1 (nx g)
    (ew2 (λ a b, 2 * dy g / dx g / (a + b))%Q
       (cols (map2d (Qdiv 1) k) 0 (nx g - 1)) (cols (map2d (Qdiv 1) k) 1 (nx g)))
  = tab (ny g) (λ i, tab (nx g + 1) (tx_spec g k i)).
Proof.
  destruct (grid_ok_inv g Hg) as (Hnx & Hny & _).
  rewrite (tab_of_shape k _ _ Hk) at 1 2.
  rewrite map2d_tab, !cols_tab by lia.
  replace (nx g - 1 - 0) with (nx g - 1) by lia.
  rewrite ew2_tab, zeros2_tab, set_cols_tab by lia.
  apply tab_ext; intros i _. apply tab_ext; intros j Hj.
  unfold tx_spec. case_decide.
  - rewrite decide_True by lia. simpl.
    replace (S (j - 1)) with j by lia. done.
  - by rewrite decide_False by lia.
Qed.

Lemma transmi_ty :
  set_slice (zeros2 (ny g + 1) (nx g)) 1 (ny g)
    (ew2 (λ a b, 2 * dx g / dy g / (a + b))%Q
       (slice (map2d (Qdiv 1) k) 0 (ny g - 1)) (slice (map2d (Qdiv 1) k) 1 (ny g)))
  = tab (ny g + 1) (λ i, tab (nx g) (ty_spec g k i)).
Proof.
  destruct (grid_ok_inv g Hg) as (Hnx & Hny & _).
  rewrite (tab_of_shape k _ _ Hk) at 1 2.
  rewrite map2d_tab, !slice_tab by lia.
  replace (ny g - 1 - 0) with (ny g - 1) by lia.
  rewrite ew2_tab, zeros2_tab, set_slice_tab by lia.
  apply tab_ext; intros i Hi.
  unfold ty_spec. destruct (decide (1 ≤ i < ny g)) as [Hin|Hout].
  - apply tab_ext; intros j Hj. rewrite decide_True by lia. simpl.
    replace (S (i - 1)) with i by lia. done.
  - apply tab_ext; intros j Hj. by rewrite decide_False by lia.
Qed.

(** [transmi] returns on every grid with at least two columns. *)
Lemma transmi_ok :
  2 ≤ nx g →
  transmi g k
  = Ok (transmi_mat g k,
        tab (ny g) (λ i, tab (nx g + 1) (tx_spec g k i)),
        tab (ny g + 1) (λ i, tab (nx g) (ty_spec g k i))).
Proof.
  intros Hnx2.
  destruct (grid_ok_inv g Hg) as (Hnx & Hny & Hn & _).
  destruct (cell_size_pos g Hg Hlx Hly) as [Hdx Hdy].
  unfold transmi.
  rewrite (py_div_ok _ (dx g)) by (intros E; rewrite E in Hdx; by apply Qlt_irrefl in Hdx).
  rewrite result_bind_Ok.
  rewrite (py_div_ok _ (dy g)) by (intros E; rewrite E in Hdy; by apply Qlt_irrefl in Hdy).
  rewrite result_bind_Ok.
  cbv zeta.
  rewrite transmi_tx, transmi_ty.
  rewrite !cols_tab by lia.
  rewrite !(slice_tab (A := list Q)) by lia.
  rewrite !reshape1_tab by lia.
  rewrite !result_bind_Ok.
  rewrite !neg_tab, !ew1_tab.
  replace (nx g + 1 - 1) with (nx g) by lia.
  replace (nx g - 0) with (nx g) by lia.
  match goal with
  | |- context [spdiags ?d _ _ _] =>
      assert (Hdata : d = transmi_data g k)
  end.
  { unfold transmi_data, x1_spec, x2_spec, y1_spec, y2_spec.
    repeat (f_equal; try (apply tab_ext; intros m _; simpl;
                          rewrite ?Nat.add_1_r; reflexivity)). }
  rewrite Hdata.
  rewrite spdiags_ok; [by rewrite result_bind_Ok|done|by apply penta_NoDup].
Qed.
End Transmi.

(** * Cells, faces and the five-point stencil *)

Lemma divmod_cell (w i j : nat) :
  j < w → (i * w + j) / w = i ∧ (i * w + j) `mod` w = j.
Proof.
  intros Hj. split.
  - symmetry. apply (Nat.div_unique _ _ _ j); lia.
  - symmetry. apply (Nat.mod_unique _ _ i); lia.
Qed.

Lemma cell_coords (w m : nat) :
  w ≠ 0 → m = (m / w) * w + m `mod` w ∧ m `mod` w < w.
Proof.
  intros Hw. split.
  - rewrite (Nat.div_mod_eq m w) at 1. lia.
  - by apply Nat.mod_upper_bound.
Qed.

Section Faces.
Variables (g : Grid) (k : list (list Q)).
Hypothesis Hg : grid_ok g.

Lemma tx_spec_west i : tx_spec g k i 0 = 0%Q.
Proof. unfold tx_spec. by rewrite decide_False by lia. Qed.

Lemma tx_spec_east i : tx_spec g k i (nx g) = 0%Q.
Proof.
  destruct (grid_ok_inv g Hg) as (Hnx & _).
  unfold tx_spec. by rewrite decide_False by lia.
Qed.

Lemma ty_spec_south j : ty_spec g k 0 j = 0%Q.
Proof. unfold ty_spec. by rewrite decide_False by lia. Qed.

Lemma ty_spec_north j : ty_spec g k (ny g) j = 0%Q.
Proof.
  destruct (grid_ok_inv g Hg) as (_ & Hny & _).
  unfold ty_spec. by rewrite decide_False by lia.
Qed.

(** The east face of a cell is the west face of the next cell. *)
Lemma x2_x1 m : x2_spec g k m = x1_spec g k (m + 1).
Proof.
  destruct (grid_ok_inv g Hg) as (Hnx & _).
  destruct (cell_coords (nx g) m Hnx) as [Hm Hj].
  unfold x1_spec, x2_spec.
  destruct (decide (m `mod` nx g + 1 < nx g)) as [Hin|Hlast].
  - destruct (divmod_cell (nx g) (m / nx g) (m `mod` nx g + 1) Hin) as [Hd Hmod].
    replace (m + 1) with (m / nx g * nx g + (m `mod` nx g + 1)) by lia.
    by rewrite Hd, Hmod.
  - assert (Hnx0 : 0 < nx g) by lia.
    destruct (divmod_cell (nx g) (m / nx g + 1) 0 Hnx0) as [Hd Hmod].
    replace (m + 1) with ((m / nx g + 1) * nx g + 0) by lia.
    rewrite Hd, Hmod.
    replace (m `mod` nx g + 1) with (nx g) by lia.
    by rewrite tx_spec_west, tx_spec_east.
Qed.

(** The north face of a cell is the south face of the cell above. *)
Lemma y2_y1 m : y2_spec g k m = y1_spec g k (m + nx g).
Proof.
  destruct (grid_ok_inv g Hg) as (Hnx & _).
  destruct (cell_coords (nx g) m Hnx) as [Hm Hj].
  unfold y1_spec, y2_spec.
  destruct (divmod_cell (nx g) (m / nx g + 1) (m `mod` nx g) Hj) as [Hd Hmod].
  replace (m + nx g) with ((m / nx g + 1) * nx g + m `mod` nx g) by lia.
  by rewrite Hd, Hmod.
Qed.

Lemma x1_first m : m `mod` nx g = 0 → x1_spec g k m = 0%Q.
Proof. intros Hm. unfold x1_spec. rewrite Hm. apply tx_spec_west. Qed.

Lemma x2_last m : m `mod` nx g + 1 = nx g → x2_spec g k m = 0%Q.
Proof. intros Hm. unfold x2_spec. rewrite Hm. apply tx_spec_east. Qed.



Lemma x2_end m : m + 1 = ncell g → x2_spec g k m = 0%Q.
Proof.
  destruct (grid_ok_inv g Hg) as (Hnx & Hny & Hn & _).
  intros Hm. apply x2_last.
  destruct (cell_coords (nx g) m Hnx) as [Hdm Hj].
  assert (m / nx g < ny g) by (apply Nat.Div0.div_lt_upper_bound; lia).
  nia.
Qed.
End Faces.

(** * The assembled transmissibility matrix *)

Section TransmiMatrix.
Variables (g : Grid) (k : list (list Q)).
Hypothesis Hg : grid_ok g.
Hypothesis Hnx2 : 2 ≤ nx g.

Lemma transmi_get r c :
  r < ncell g → c < ncell g →
  (csr_get (transmi_mat g k) r c == transmi_entry g k r c)%Q.
Proof.
  intros Hr Hc. unfold transmi_mat.
  rewrite csr_get_spdiags by (done || by apply penta_NoDup).
  unfold penta, transmi_data, transmi_entry. cbn [dia_get].
  rewrite !at1_tab by done.
  repeat case_decide; try reflexivity; exfalso; lia.
Qed.
End TransmiMatrix.

(** * Symmetry and signs *)

Lemma at2_nonneg (k : list (list Q)) i j : all_positive k → (0 <= at2 k i j)%Q.
Proof.
  intros Hpos. unfold at2, at1.
  destruct (k !! i) as [row|] eqn:Hrow; simpl; [|done].
  destruct (row !! j) as [x|] eqn:Hx; simpl; [|done].
  apply Qlt_le_weak.
  pose proof (Forall_lookup_1 _ _ _ _ Hpos Hrow) as Hr.
  exact (Forall_lookup_1 _ _ _ _ Hr Hx).
Qed.

Lemma harmonic_nonneg (a x y : Q) :
  (0 <= a)%Q → (0 <= x)%Q → (0 <= y)%Q → (0 <= a / (1 / x + 1 / y))%Q.
Proof.
  intros Ha Hx Hy. unfold Qdiv.
  apply Qmult_le_0_compat; [done|].
  apply Qinv_le_0_compat.
  rewrite !Qmult_1_l.
  replace 0%Q with (0 + 0)%Q by reflexivity.
  apply Qplus_le_compat; by apply Qinv_le_0_compat.
Qed.

Section Signs.
Variables (g : Grid) (k : list (list Q)).
Hypothesis Hg : grid_ok g.
Hypothesis Hlx : (0 < lx g)%Q.
Hypothesis Hly : (0 < ly g)%Q.
Hypothesis Hpos : all_positive k.

Lemma ax_nonneg : (0 <= 2 * dy g / dx g)%Q.
Proof.
  destruct (cell_size_pos g Hg Hlx Hly) as [Hdx Hdy].
  apply Qle_shift_div_l; [done|]. rewrite Qmult_0_l.
  apply Qmult_le_0_compat; [done|by apply Qlt_le_weak].
Qed.

Lemma ay_nonneg : (0 <= 2 * dx g / dy g)%Q.
Proof.
  destruct (cell_size_pos g Hg Hlx Hly) as [Hdx Hdy].
  apply Qle_shift_div_l; [done|]. rewrite Qmult_0_l.
  apply Qmult_le_0_compat; [done|by apply Qlt_le_weak].
Qed.

Lemma tx_spec_nonneg i j : (0 <= tx_spec g k i j)%Q.
Proof.
  unfold tx_spec. case_decide; [|done].
  apply harmonic_nonneg; [apply ax_nonneg|by apply at2_nonneg..].
Qed.

Lemma ty_spec_nonneg i j : (0 <= ty_spec g k i j)%Q.
Proof.
  unfold ty_spec. case_decide; [|done].
  apply harmonic_nonneg; [apply ay_nonneg|by apply at2_nonneg..].
Qed.

Lemma transmi_entry_sym r c :
  2 ≤ nx g → transmi_entry g k r c = transmi_entry g k c r.
Proof.
  intros Hnx2. unfold transmi_entry.
  pose proof (x2_x1 g k Hg) as HX. pose proof (y2_y1 g k Hg) as HY.
  repeat case_decide; try (exfalso; lia); subst; try reflexivity.
  - by rewrite HY.
  - by rewrite HX.
  - by rewrite HX.
  - by rewrite HY.
Qed.

Lemma transmi_entry_offdiag r c : r ≠ c → (transmi_entry g k r c <= 0)%Q.
Proof.
  intros Hne. unfold transmi_entry, x1_spec, x2_spec, y1_spec, y2_spec.
  repeat case_decide; try done;
    try (apply (Qopp_le_compat 0); (apply tx_spec_nonneg || apply ty_spec_nonneg)).
Qed.

Lemma transmi_entry_diag r : (0 <= transmi_entry g k r r)%Q.
Proof.
  unfold transmi_entry, x1_spec, x2_spec, y1_spec, y2_spec.
  destruct (grid_ok_inv g Hg) as (Hnx & _).
  rewrite decide_False by lia.
  rewrite decide_False by lia.
  rewrite decide_True by done.
  repeat (replace 0%Q with (0 + 0)%Q by reflexivity; apply Qplus_le_compat);
    (apply tx_spec_nonneg || apply ty_spec_nonneg).
Qed.
End Signs.

(** * Theorems on [transmi] *)

Lemma transmi_shapes (g : Grid) (k : list (list Q)) :
  has_shape (ny g) (nx g + 1) (tab (ny g) (λ i, tab (nx g + 1) (tx_spec g k i))) ∧
  has_shape (ny g + 1) (nx g) (tab (ny g + 1) (λ i, tab (nx g) (ty_spec g k i))).
Proof.
  split; (split; [apply length_tab|]); unfold tab at 1;
    apply Forall_fmap, Forall_forall; intros i _; simpl; apply length_tab.
Qed.



(** The same input in binary64: the diagonal entry of every row is again the
    negated sum of the off-diagonal entries in the order west, east, south,
    north. *)
Lemma transmi64_diag_balance_3x2 :
  ∃ mat tx ty,
    transmi64_3x2 = Ok (mat, tx, ty) ∧
    ∀ i j, i < 2 → j < 3 →
      PrimFloat.eqb (csr64_get mat (i * 3 + j) (i * 3 + j))
                    (PrimFloat.opp (offdiag_wesn64 mat 3 2 i j)) = true.
Proof.
  destruct transmi64_3x2 as [[[mat tx] ty]|e] eqn:Hret;
    [|vm_compute in Hret; discriminate Hret].
  exists mat, tx, ty. split; [reflexivity|].
  vm_compute in Hret. injection Hret as <- _ _.
  intros i j Hi Hj.
  destruct i as [|[|i]]; [| |lia]; (destruct j as [|[|[|j]]]; [| | |lia]);
    vm_compute; reflexivity.
Qed.


(** C4, amended.  On a grid with at least two columns, [transmi] returns
    [tx] of shape [(ny, nx+1)] with the harmonic-mean transmissibility on the
    interior faces and zero on the faces [j = 0] and [j = nx], [ty] of shape
    [(ny+1, nx)] likewise, and a matrix of shape [(ncell, ncell)] whose row of
    cell [m = i*nx + j] has [-tx[i,j]] at column [m-1], [-tx[i,j+1]] at
    column [m+1], [-ty[i,j]] at column [m-nx], [-ty[i+1,j]] at column [m+nx]
    where those neighbours exist, and the sum of the four on the diagonal. *)
Theorem transmi_spec (g : Grid) (k : list (list Q)) :
  grid_ok g → (0 < lx g)%Q → (0 < ly g)%Q → 2 ≤ nx g →
  has_shape (ny g) (nx g) k → all_positive k →
  ∃ mat tx ty,
    transmi g k = Ok (mat, tx, ty) ∧
    has_shape (ny g) (nx g + 1) tx ∧ has_shape (ny g + 1) (nx g) ty ∧
    nrows mat = ncell g ∧ ncols mat = ncell g ∧
    (∀ i j, i < ny g → 1 ≤ j ≤ nx g - 1 →
       at2 tx i j = (2 * dy g / dx g / (1 / at2 k i (j - 1) + 1 / at2 k i j))%Q) ∧
    (∀ i, i < ny g → at2 tx i 0 = 0%Q ∧ at2 tx i (nx g) = 0%Q) ∧
    (∀ i j, 1 ≤ i ≤ ny g - 1 → j < nx g →
       at2 ty i j = (2 * dx g / dy g / (1 / at2 k (i - 1) j + 1 / at2 k i j))%Q) ∧
    (∀ j, j < nx g → at2 ty 0 j = 0%Q ∧ at2 ty (ny g) j = 0%Q) ∧
    (∀ i j, i < ny g → j < nx g →
       let m := i * nx g + j in
       (1 ≤ j → (csr_get mat m (m - 1) == - at2 tx i j)%Q) ∧
       (j + 1 < nx g → (csr_get mat m (m + 1) == - at2 tx i (j + 1))%Q) ∧
       (1 ≤ i → (csr_get mat m (m - nx g) == - at2 ty i j)%Q) ∧
       (i + 1 < ny g → (csr_get mat m (m + nx g) == - at2 ty (i + 1) j)%Q) ∧
       (csr_get mat m m
        == at2 tx i j + at2 tx i (j + 1) + at2 ty i j + at2 ty (i + 1) j)%Q).
Proof.
  intros Hg Hlx Hly Hnx2 Hk _.
  destruct (grid_ok_inv g Hg) as (Hnx & Hny & Hn & _).
  destruct (transmi_shapes g k) as [Htxs Htys].
  eexists _, _, _. split; [by apply transmi_ok|].
  split; [exact Htxs|]. split; [exact Htys|].
  split; [unfold nrows; simpl; by rewrite length_fmap, length_seq|].
  split; [done|].
  split; [|split; [|split; [|split]]].
  - intros i j Hi Hj. rewrite at2_tab by lia. unfold tx_spec.
    by rewrite decide_True by lia.
  - intros i Hi. rewrite !at2_tab by lia.
    by rewrite tx_spec_west, tx_spec_east.
  - intros i j Hi Hj. rewrite at2_tab by lia. unfold ty_spec.
    by rewrite decide_True by lia.
  - intros j Hj. rewrite !at2_tab by lia.
    by rewrite ty_spec_south, ty_spec_north.
  - intros i j Hi Hj m.
    assert (Hm : m < ncell g) by (unfold m; nia).
    destruct (divmod_cell (nx g) i j Hj) as [Hd Hmod]. fold m in Hd, Hmod.
    assert (Hx1 : x1_spec g k m = tx_spec g k i j)
      by (unfold x1_spec; by rewrite Hd, Hmod).
    assert (Hx2 : x2_spec g k m = tx_spec g k i (j + 1))
      by (unfold x2_spec; by rewrite Hd, Hmod).
    assert (Hy1 : y1_spec g k m = ty_spec g k i j)
      by (unfold y1_spec; by rewrite Hd, Hmod).
    assert (Hy2 : y2_spec g k m = ty_spec g k (i + 1) j)
      by (unfold y2_spec; by rewrite Hd, Hmod).
    rewrite !at2_tab by lia.
    split; [|split; [|split; [|split]]].
    + intros Hj1. rewrite transmi_get by (done || lia).
      unfold transmi_entry.
      rewrite decide_False by lia. rewrite decide_True by lia.
      rewrite (x2_x1 g k Hg). replace (m - 1 + 1) with m by lia.
      by rewrite Hx1.
    + intros Hj1. rewrite transmi_get by (done || unfold m; nia).
      unfold transmi_entry. do 3 rewrite decide_False by lia.
      rewrite decide_True by lia.
      by rewrite <- (x2_x1 g k Hg), Hx2.
    + intros Hi1. rewrite transmi_get by (done || lia).
      unfold transmi_entry. rewrite decide_True by (unfold m; nia).
      rewrite (y2_y1 g k Hg). replace (m - nx g + nx g) with m by (unfold m; nia).
      by rewrite Hy1.
    + intros Hi1. rewrite transmi_get by (done || unfold m; nia).
      unfold transmi_entry. do 4 rewrite decide_False by lia.
      rewrite decide_True by lia.
      by rewrite <- (y2_y1 g k Hg), Hy2.
    + rewrite transmi_get by done. unfold transmi_entry.
      do 2 rewrite decide_False by lia. rewrite decide_True by lia.
      by rewrite Hx1, Hx2, Hy1, Hy2.
Qed.

Lemma transmi_spec_witness :
  ∃ mat tx ty,
    transmi grid_2x3 k_2x3 = Ok (mat, tx, ty) ∧
    has_shape 3 3 tx ∧ has_shape 4 2 ty ∧
    at2 tx 1 1 = (2 * (1 # 3) / (1 # 2) / (1 / 3 + 1 / 4))%Q ∧
    (csr_get mat 3 2 == - at2 tx 1 1)%Q.
Proof.
  destruct (transmi_spec grid_2x3 k_2x3)
    as (mat & tx & ty & Hret & Htx & Hty & _ & _ & Hint & _ & _ & _ & Hmat).
  - vm_compute. reflexivity.
  - reflexivity.
  - reflexivity.
  - simpl. lia.
  - split; [reflexivity|]. repeat constructor.
  - repeat constructor.
  - exists mat, tx, ty.
    split; [exact Hret|]. split; [exact Htx|]. split; [exact Hty|].
    split.
    + apply (Hint 1 1); simpl; lia.
    + destruct (Hmat 1 1) as (Hwest & _); [simpl; lia..|].
      apply Hwest. lia.
Defined.

(** With a single column [transmi] raises and returns nothing. *)
Lemma transmi_spec_counterexample :
  grid_ok grid_1x2 ∧ has_shape 2 1 [[1%Q]; [2%Q]] ∧
  all_positive [[1%Q]; [2%Q]] ∧
  transmi grid_1x2 [[1%Q]; [2%Q]] = Err ValueError.
Proof.
  split; [vm_compute; reflexivity|].
  split; [split; [reflexivity|repeat constructor]|].
  split; [repeat constructor|].
  vm_compute. reflexivity.
Qed.

(** C10, amended.  On a grid with at least two columns and positive extents
    and a strictly positive permeability field, [transmi] returns a symmetric
    matrix whose off-diagonal entries are non-positive and whose diagonal
    entries are non-negative. *)
Theorem transmi_symmetric (g : Grid) (k : list (list Q)) :
  grid_ok g → (0 < lx g)%Q → (0 < ly g)%Q → 2 ≤ nx g →
  has_shape (ny g) (nx g) k → all_positive k →
  ∃ mat tx ty,
    transmi g k = Ok (mat, tx, ty) ∧
    ∀ r c, r < ncell g → c < ncell g →
      (csr_get mat r c == csr_get mat c r)%Q ∧
      (r ≠ c → (csr_get mat r c <= 0)%Q) ∧
      (0 <= csr_get mat r r)%Q.
Proof.
  intros Hg Hlx Hly Hnx2 Hk Hpos.
  eexists _, _, _. split; [by apply transmi_ok|].
  intros r c Hr Hc. rewrite !transmi_get by done.
  split; [|split].
  - by rewrite transmi_entry_sym.
  - intros Hne. by apply transmi_entry_offdiag.
  - by apply transmi_entry_diag.
Qed.

Lemma transmi_symmetric_witness :
  ∃ mat tx ty,
    transmi grid_2x2 k_2x2 = Ok (mat, tx, ty) ∧
    ∀ r c, r < 4 → c < 4 →
      (csr_get mat r c == csr_get mat c r)%Q ∧
      (r ≠ c → (csr_get mat r c <= 0)%Q) ∧
      (0 <= csr_get mat r r)%Q.
Proof.
  apply (transmi_symmetric grid_2x2 k_2x2).
  - vm_compute. reflexivity.
  - reflexivity.
  - reflexivity.
  - simpl. lia.
  - split; [reflexivity|]. repeat constructor.
  - repeat constructor.
Defined.

(** With a single column no matrix is returned. *)
Lemma transmi_symmetric_counterexample :
  grid_ok grid_1x3 ∧ (0 < lx grid_1x3)%Q ∧ (0 < ly grid_1x3)%Q ∧
  has_shape 3 1 [[2%Q]; [2%Q]; [2%Q]] ∧ all_positive [[2%Q]; [2%Q]; [2%Q]] ∧
  ¬ ∃ mat tx ty,
      transmi grid_1x3 [[2%Q]; [2%Q]; [2%Q]] = Ok (mat, tx, ty) ∧
      ∀ r c, r < ncell grid_1x3 → c < ncell grid_1x3 →
        (csr_get mat r c == csr_get mat c r)%Q.
Proof.
  split; [vm_compute; reflexivity|].
  split; [reflexivity|]. split; [reflexivity|].
  split; [split; [reflexivity|repeat constructor]|].
  split; [repeat constructor|].
  intros (mat & tx & ty & Hret & _). vm_compute in Hret. discriminate Hret.
Qed.

(** * The permeability setter *)

Lemma py_all_wide (a : list bool) (rest : list (list bool)) :
  2 ≤ length a → py_all (a :: rest) = Err ValueError.
Proof. destruct a as [|b [|b' a]]; simpl; intros Hlen; (lia || done). Qed.

Lemma set_k_wide (self : gmap string value) (k : list (list Q)) (r c : nat) :
  has_shape r c k → 1 ≤ r → 2 ≤ c → set_k self k = Err ValueError.
Proof.
  intros [Hlen Hall] Hr Hc. destruct k as [|row k]; [simpl in Hlen; lia|].
  apply Forall_cons in Hall as [Hrow _].
  unfold set_k, gt0. rewrite fmap_cons, py_all_wide; [done|].
  rewrite length_fmap. lia.
Qed.

(** On a single column the builtin [all] does test every entry. *)
Lemma py_all_single_column (k : list (list Q)) :
  Forall (λ row, length row = 1) k →
  py_all (gt0 k) = Ok (bool_decide (all_positive k)).
Proof.
  induction k as [|row k IH]; intros Hall.
  - reflexivity.
  - apply Forall_cons in Hall as [Hrow Hall].
    destruct row as [|x [|??]]; try done.
    unfold gt0 in *. rewrite fmap_cons. simpl.
    destruct (Qlt_le_dec 0 x) as [Hx|Hx]; simpl.
    + rewrite IH by done. f_equal. apply bool_decide_ext.
      unfold all_positive. rewrite Forall_cons. split.
      * intros Hk. split; [|done]. by repeat constructor.
      * by intros [_ Hk].
    + f_equal. symmetry. apply bool_decide_eq_false_2.
      unfold all_positive. rewrite Forall_cons. intros [Hx' _].
      apply Forall_cons in Hx' as [Hx' _].
      by apply Qlt_not_le in Hx'.
Qed.

Lemma set_k_single_column (self : gmap string value) (k : list (list Q)) :
  Forall (λ row, length row = 1) k →
  set_k self k =
    if bool_decide (all_positive k)
    then Ok (<["_PressureSolver__k" := VArr2 k]> self)
    else Err AssertionError.
Proof. intros Hall. unfold set_k. by rewrite py_all_single_column. Qed.

(** An array with a non-positive entry is never stored: the setter raises,
    with the assertion on a single column and with the [ValueError] of the
    ambiguous truth value on more columns. *)
Lemma set_k_nonpositive_raises (self : gmap string value) (k : list (list Q))
    (r c : nat) :
  has_shape r c k → ¬ all_positive k → ∃ e, set_k self k = Err e.
Proof.
  intros Hk Hneg. pose proof Hk as [Hlen Hall].
  destruct k as [|row k]; [exfalso; apply Hneg; constructor|].
  destruct (decide (2 ≤ c)) as [Hwide|Hnarrow].
  - exists ValueError. apply (set_k_wide self _ r c); [done| |done].
    simpl in Hlen. lia.
  - destruct (decide (c = 1)) as [->|Hc].
    + exists AssertionError. rewrite set_k_single_column by done.
      by rewrite bool_decide_eq_false_2.
    + assert (c = 0) as -> by lia.
      apply Forall_cons in Hall as [Hrow _].
      destruct row; [|done].
      exists AssertionError. reflexivity.
Qed.

(** C7.  The setter of [k] raises a [ValueError] on every array with at least
    one row and at least two columns, whatever its entries: a strictly
    positive array of that shape is not stored. *)
Theorem set_k_rejects_two_columns (self : gmap string value)
    (k : list (list Q)) (r c : nat) :
  has_shape r c k → all_positive k → 1 ≤ r → 2 ≤ c →
  set_k self k = Err ValueError.
Proof. intros Hk _ Hr Hc. by apply (set_k_wide self k r c). Qed.

Lemma set_k_rejects_two_columns_witness :
  set_k ∅ [[1; 1]; [1; 1]]%Q = Err ValueError.
Proof.
  apply (set_k_rejects_two_columns ∅ [[1; 1]; [1; 1]]%Q 2 2).
  - split; [reflexivity|]. repeat constructor.
  - repeat constructor.
  - lia.
  - lia.
Defined.

(** * The solver object *)

Lemma getattr_insert_eq (self : gmap string value) name v :
  getattr (<[name := v]> self) name = Ok v.
Proof. unfold getattr. by rewrite lookup_insert_eq. Qed.

Lemma getattr_insert_ne (self : gmap string value) name name' v :
  name ≠ name' → getattr (<[name := v]> self) name' = getattr self name'.
Proof. intros Hne. unfold getattr. by rewrite lookup_insert_ne. Qed.

(** The setter of [diriBC] keeps nothing of a list it is handed. *)
Lemma set_diriBC_Some (self : gmap string value) (L : list (nat * Q)) :
  set_diriBC self (Some L) = Ok self.
Proof. reflexivity. Qed.

Lemma set_diriBC_None (self : gmap string value) (g : Grid) :
  getattr self "grid" = Ok (VGrid g) →
  set_diriBC self None
  = Ok (<["_PressureSolver__diriBC" := VPins [(ncell g / 2, 0%Q)]]> self).
Proof. intros Hg. unfold set_diriBC. by rewrite Hg. Qed.

(** A solver constructed with a list of pins has no boundary list. *)
Lemma init_Some_no_diriBC g k q L mobi_fn s self :
  PressureSolver_init g k q (Some L) mobi_fn s = Ok self →
  self !! "_PressureSolver__diriBC" = None.
Proof.
  unfold PressureSolver_init, set_k.
  destruct (py_all (gt0 k)) as [[|]|]; simpl; try done.
  intros [= <-]. by simplify_map_eq.
Qed.

(** Without a boundary list, [step] raises: at the latest when it reads
    [self.diriBC]. *)
Lemma step_no_diriBC spsolve (self : gmap string value) :
  self !! "_PressureSolver__diriBC" = None →
  ∃ e, step spsolve self = Err e.
Proof.
  intros Hbc. unfold step, get_diriBC.
  assert (Hget : getattr self "_PressureSolver__diriBC" = Err AttributeError).
  { unfold getattr. by rewrite Hbc. }
  rewrite Hget.
  repeat bind_raises.
Qed.

(** C1.  A solver constructed with a list [L] of pins does not hold [L]:
    nothing is stored under the property, reading [diriBC] raises an
    [AttributeError], and [step] raises instead of applying the pins. *)
Theorem init_drops_diriBC (g : Grid) (k : list (list Q)) (q : list Q)
    (L : list (nat * Q)) (mobi_fn : option mobility) (s : option (list Q))
    (self : gmap string value) :
  PressureSolver_init g k q (Some L) mobi_fn s = Ok self →
  get_diriBC self = Err AttributeError ∧
  ∀ spsolve, ∃ e, step spsolve self = Err e.
Proof.
  intros Hinit. pose proof (init_Some_no_diriBC _ _ _ _ _ _ _ Hinit) as Hbc.
  split.
  - unfold get_diriBC, getattr. by rewrite Hbc.
  - intros spsolve. by apply step_no_diriBC.
Qed.

Lemma init_drops_diriBC_witness :
  PressureSolver_init grid_1x1 [[1%Q]] [0%Q] (Some [(0, 1%Q)]) None None
  = Ok (solver_1x1 None) ∧
  get_diriBC (solver_1x1 None) = Err AttributeError ∧
  ∀ spsolve, ∃ e, step spsolve (solver_1x1 None) = Err e.
Proof.
  assert (Hinit : PressureSolver_init grid_1x1 [[1%Q]] [0%Q]
                    (Some [(0, 1%Q)]) None None = Ok (solver_1x1 None))
    by reflexivity.
  split; [exact Hinit|].
  exact (init_drops_diriBC _ _ _ _ _ _ _ Hinit).
Defined.

(** The scenario of the claim: the constructor itself raises, in the setter
    of [k]. *)
Lemma init_scenario_3x3 :
  Grid_init 3 3 1 1 = Ok grid_3x3 ∧
  PressureSolver_init grid_3x3 (ones2 3 3) (replicate 9 0%Q)
    (Some [(4, 0%Q); (0, 1%Q)]) None None = Err ValueError.
Proof. split; reflexivity. Qed.

(** With the default pin the boundary list is stored. *)
Lemma init_default_diriBC :
  PressureSolver_init grid_1x1 [[1%Q]] [0%Q] None None None
  = Ok (solver_1x1 (Some (VPins [(0, 0%Q)]))).
Proof. reflexivity. Qed.

(** C5.  Constructing a solver with a single pin [(i, val)] and taking a
    step raises, whatever the grid, the permeability and the source: no
    pressure field is produced. *)
Theorem solve_once_single_pin_raises
    (spsolve : csr → list Q → result (list Q))
    (g : Grid) (k : list (list Q)) (q : list Q) (i : nat) (val : Q)
    (mobi_fn : option mobility) (s : option (list Q)) :
  ∃ e, solve_once spsolve g k q (Some [(i, val)]) mobi_fn s = Err e.
Proof.
  unfold solve_once.
  destruct (PressureSolver_init g k q (Some [(i, val)]) mobi_fn s)
    as [self|e] eqn:Hinit; [|by exists e].
  change (Ok self ≫= step spsolve) with (step spsolve self).
  apply step_no_diriBC. by eapply init_Some_no_diriBC.
Qed.

(** On a uniform 2 by 2 field the constructor already raises. *)
Lemma solve_once_uniform_2x2 spsolve :
  solve_once spsolve grid_2x2 (ones2 2 2) (replicate 4 0%Q)
    (Some [(0, 1%Q)]) None None = Err ValueError.
Proof. reflexivity. Qed.

(** With a single column, [transmi] raises on every permeability array. *)
Lemma transmi_single_column (g : Grid) (k : list (list Q)) :
  nx g = 1 → ∃ e, transmi g k = Err e.
Proof.
  intros Hnx. unfold transmi.
  repeat bind_raises.
  unfold spdiags in *. rewrite Hnx in *.
  match goal with
  | E : (if decide ?P then _ else _) = Ok _ |- _ =>
      destruct (decide P) as [[_ Hnd]|]; [|discriminate E]
  end.
  exfalso. apply NoDup_cons in Hnd as [Hnd _]. apply Hnd.
  apply elem_of_cons. by left.
Qed.

(** X24.  No solver built by the constructor on a grid and a permeability
    array of the grid's shape completes a step. *)
Lemma solve_once_never_returns spsolve g k q diriBC mobi_fn s :
  grid_ok g → has_shape (ny g) (nx g) k →
  ∃ e, solve_once spsolve g k q diriBC mobi_fn s = Err e.
Proof.
  intros Hg Hk. destruct (grid_ok_inv g Hg) as (Hnx & Hny & _).
  unfold solve_once.
  destruct (decide (2 ≤ nx g)) as [Hwide|Hone].
  - unfold PressureSolver_init.
    rewrite (set_k_wide _ k (ny g) (nx g)) by (done || lia).
    by eexists.
  - assert (Hnx1 : nx g = 1) by lia.
    destruct (PressureSolver_init g k q diriBC mobi_fn s)
      as [self|e] eqn:Hinit; [|by exists e].
    change (Ok self ≫= step spsolve) with (step spsolve self).
    assert (Hgrid : getattr self "grid" = Ok (VGrid g)).
    { unfold PressureSolver_init, set_k in Hinit.
      destruct (py_all (gt0 k)) as [[|]|]; simpl in Hinit; try done.
      destruct diriBC as [L|]; simpl in Hinit.
      - injection Hinit as <-. unfold getattr. by simplify_map_eq.
      - unfold getattr in Hinit at 1. simplify_map_eq.
        unfold getattr. by simplify_map_eq. }
    unfold step. rewrite Hgrid.
    change (Ok (VGrid g) ≫= as_grid) with (Ok g).
    change (Ok g ≫= ?f) with (f g). cbv beta zeta.
    repeat match goal with
    | |- ∃ e, (transmi g ?k' ≫= _) = Err e =>
        destruct (transmi_single_column g k' Hnx1) as [e ->]; by exists e
    | |- _ => bind_raises
    end.
Qed.

(** * [update] *)

Lemma update_singleton (self : gmap string value) name v :
  update self {[name := v]} = <[name := v]> self.
Proof. unfold update. by rewrite insert_union_singleton_l. Qed.

(** A plain attribute is replaced by [update]. *)
Lemma update_plain_attribute (self : gmap string value) name v :
  getattr (update self {[name := v]}) name = Ok v.
Proof. rewrite update_singleton. apply getattr_insert_eq. Qed.

(** Attributes that [update] is not given keep their value. *)
Lemma update_other_attribute (self params : gmap string value) name :
  params !! name = None →
  getattr (update self params) name = getattr self name.
Proof.
  intros Hname. unfold getattr, update.
  by rewrite lookup_union_r.
Qed.

(** C8.  [update(k=v)] performs no check and does not reach the property:
    it only adds the dictionary entry ["k"], which the getter of [k] and
    [step] never read.  The permeability read back is the old one, and the
    next [step] is the step of the solver before the update, apart from that
    entry. *)
Theorem update_k_not_merged (spsolve : csr → list Q → result (list Q))
    (self : gmap string value) (v : value) :
  get_k (update self {["k" := v]}) = get_k self ∧
  step spsolve (update self {["k" := v]}) = insert "k" v <$> step spsolve self.
Proof.
  rewrite update_singleton. split.
  - unfold get_k. by apply getattr_insert_ne.
  - unfold step, get_k, get_diriBC.
    rewrite !(getattr_insert_ne self "k") by done.
    repeat match goal with
    | |- (?r ≫= _) = _ <$> (?r ≫= _) =>
        let x := fresh in destruct r as [x|];
          [change (Ok x ≫= ?f) with (f x); cbv beta zeta|reflexivity]
    | |- (let '(_, _) := ?p in _) = _ => destruct p
    | |- (match ?p with (_, _) => _ end) = _ => destruct p
    end.
    cbn [fmap result_fmap]. f_equal.
    rewrite (insert_insert_ne _ "p" "k") by done.
    by rewrite (insert_insert_ne _ "v" "k") by done.
Qed.

(** A non-positive array handed to [update] is accepted, and the permeability
    of the solver stays the one given at construction. *)
Lemma update_k_negative :
  set_k (solver_1x1 (Some (VPins [(0, 0%Q)]))) [[(-1)%Q]] = Err AssertionError ∧
  get_k (update (solver_1x1 (Some (VPins [(0, 0%Q)]))) {["k" := VArr2 [[(-1)%Q]]]})
  = Ok (VArr2 [[1%Q]]) ∧
  getattr (update (solver_1x1 (Some (VPins [(0, 0%Q)]))) {["k" := VArr2 [[(-1)%Q]]]}) "k"
  = Ok (VArr2 [[(-1)%Q]]).
Proof. repeat split. Qed.

(** [update(s=v)] does set the saturation that [step] reads. *)
Lemma update_s_merged (self : gmap string value) (v : value) :
  getattr (update self {["s" := v]}) "s" = Ok v ∧
  get_k (update self {["s" := v]}) = get_k self ∧
  getattr (update self {["s" := v]}) "q" = getattr self "q".
Proof.
  split; [apply update_plain_attribute|].
  rewrite update_singleton. unfold get_k.
  by rewrite !getattr_insert_ne.
Qed.

(** * [convecti] *)

(** C6.  On the two-dimensional flux arrays that [step] stores, [convecti]
    raises an [IndexError] at its first three-index slice and returns no
    matrix. *)
Theorem convecti_rejects_step_flux (g : Grid) (vx vy : list (list Q)) :
  convecti g (Flux (Arr2 vx) (Arr2 vy)) = Err IndexError.
Proof. reflexivity. Qed.

(** With one more leading axis of length one, the matrix is assembled:
    upwind split of a flux that enters cell 0 from cell 1 and leaves it to
    cell 2, on the 2 by 2 grid. *)
Lemma convecti_3d_example :
  ∃ mat,
    convecti grid_2x2
      (Flux (Arr3 [[[0; -2; 0]; [0; 0; 0]]]%Q) (Arr3 [[[0; 0]; [3; 0]; [0; 0]]]%Q))
    = Ok mat ∧
    (λ r, (λ c, csr_get mat r c) <$> seq 0 4) <$> seq 0 4
    = [[3; -2; 0; 0]; [0; 2; 0; 0]; [-3; 0; 0; 0]; [0; 0; 0; 0]]%Q.
Proof. eexists. split; [reflexivity|]. vm_compute. reflexivity. Qed.

(** * Further properties of [impose_diriBC] *)

Lemma pins_in_range_iff mat q pins :
  pins_in_range mat q pins ↔
  ∀ i, i ∈ pins.*1 → i < nrows mat ∧ i < ncols mat ∧ i < length q.
Proof.
  unfold pins_in_range. rewrite Forall_forall. split.
  - intros Hall i (iv & -> & Hiv)%list_elem_of_fmap. by apply Hall.
  - intros Hall iv Hiv. apply Hall, list_elem_of_fmap. by exists iv.
Qed.

(** The only exception the loop raises is [IndexError]. *)
Lemma impose_loop_error mat q pins e :
  impose_loop mat q pins = Err e → e = IndexError.
Proof.
  revert mat q; induction pins as [|[i v] pins IH]; intros mat q; simpl; [done|].
  unfold csr_row_set_nz_to_val. case_decide; simpl; [|by intros [= <-]].
  unfold csr_setitem. case_decide; simpl; [|by intros [= <-]].
  unfold vec_setitem. case_decide; simpl; [|by intros [= <-]].
  apply IH.
Qed.

Lemma impose_diriBC_not_in_range mat q pins :
  ¬ pins_in_range mat q pins → impose_diriBC mat q pins = Err IndexError.
Proof.
  intros Hout. unfold impose_diriBC.
  destruct (impose_loop mat q pins) as [r|e] eqn:Hloop.
  - exfalso. apply Hout, pins_in_range_iff. by eapply impose_loop_inv.
  - by rewrite (impose_loop_error _ _ _ _ Hloop).
Qed.

(** X2.  A pin whose cell index lies outside the matrix or the right-hand
    side makes [impose_diriBC] raise [IndexError], wherever the pin stands in
    the list. *)
Theorem impose_diriBC_out_of_range (mat : csr) (q : list Q)
    (diriBC : list (nat * Q)) (i : nat) (val : Q) :
  (i, val) ∈ diriBC →
  ¬ (i < nrows mat ∧ i < ncols mat ∧ i < length q) →
  impose_diriBC mat q diriBC = Err IndexError.
Proof.
  intros Hin Hout. apply impose_diriBC_not_in_range.
  unfold pins_in_range. rewrite Forall_forall. intros Hall.
  apply Hout. exact (Hall _ Hin).
Qed.

Lemma impose_diriBC_out_of_range_witness :
  impose_diriBC mat_2 [0%Q; 0%Q] [(0, 5%Q); (2, 1%Q)] = Err IndexError.
Proof.
  apply (impose_diriBC_out_of_range mat_2 [0%Q; 0%Q] [(0, 5%Q); (2, 1%Q)] 2 1%Q).
  - apply elem_of_cons. right. apply elem_of_cons. by left.
  - unfold nrows. simpl. lia.
Defined.

Lemma pinned_q_app q L1 L2 :
  pinned_q q (L1 ++ L2) = pinned_q (pinned_q q L1) L2.
Proof. unfold pinned_q. apply foldl_app. Qed.

Lemma pinned_rows_app_filter rws L1 L2 :
  filter (λ cv : nat * Q, nonzero cv.2) <$>
    pinned_rows (filter (λ cv : nat * Q, nonzero cv.2) <$> pinned_rows rws L1) L2
  = filter (λ cv : nat * Q, nonzero cv.2) <$> pinned_rows rws (L1 ++ L2).
Proof.
  apply list_eq; intros r.
  rewrite !list_lookup_fmap, !pinned_rows_lookup, list_lookup_fmap,
    pinned_rows_lookup.
  destruct (rws !! r) as [row|]; [simpl|done]. f_equal.
  assert (Hmem : r ∈ (L1 ++ L2).*1 ↔ r ∈ L1.*1 ∨ r ∈ L2.*1).
  { rewrite fmap_app. apply elem_of_app. }
  destruct (decide (r ∈ L2.*1)) as [H2|H2].
  - rewrite filter_pin_row.
    rewrite (decide_True (P := r ∈ (L1 ++ L2).*1)) by (apply Hmem; by right).
    by rewrite filter_pin_row.
  - destruct (decide (r ∈ L1.*1)) as [H1|H1].
    + rewrite (decide_True (P := r ∈ (L1 ++ L2).*1)) by (apply Hmem; by left).
      by rewrite filter_nonzero_idemp.
    + rewrite (decide_False (P := r ∈ (L1 ++ L2).*1)) by (rewrite Hmem; tauto).
      by rewrite filter_nonzero_idemp.
Qed.

(** X3.  Imposing a list of pins in two parts, one call after the other, is
    imposing the whole list in one call: the same matrix, the same
    right-hand side, and the same [IndexError] when a pin is out of range. *)
Theorem impose_diriBC_app (mat : csr) (q : list Q) (L1 L2 : list (nat * Q)) :
  impose_diriBC mat q (L1 ++ L2)
  = impose_diriBC mat q L1 ≫= λ '(mat1, q1), impose_diriBC mat1 q1 L2.
Proof.
  destruct (decide (pins_in_range mat q L1)) as [Hin1|Hout1].
  - rewrite (impose_diriBC_ok mat q L1) by (by apply pins_in_range_iff).
    change (Ok ?a ≫= ?f) with (f a). cbv beta iota.
    destruct (decide (pins_in_range mat q L2)) as [Hin2|Hout2].
    + rewrite (impose_diriBC_ok mat q (L1 ++ L2)).
      2:{ apply pins_in_range_iff. unfold pins_in_range in *.
          by apply Forall_app. }
      rewrite impose_diriBC_ok.
      2:{ intros i Hi. apply (proj1 (pins_in_range_iff _ _ _) Hin2) in Hi.
          unfold nrows, eliminate_zeros in *. simpl.
          by rewrite length_fmap, pinned_rows_length, pinned_q_length. }
      unfold eliminate_zeros. simpl.
      by rewrite pinned_rows_app_filter, pinned_q_app.
    + rewrite impose_diriBC_not_in_range.
      2:{ unfold pins_in_range. rewrite Forall_app. tauto. }
      rewrite impose_diriBC_not_in_range; [done|].
      intros Hin. apply Hout2. unfold pins_in_range, nrows, eliminate_zeros in *.
      simpl in Hin.
      by rewrite length_fmap, pinned_rows_length, pinned_q_length in Hin.
  - rewrite (impose_diriBC_not_in_range mat q (L1 ++ L2)).
    2:{ unfold pins_in_range. rewrite Forall_app. tauto. }
    by rewrite (impose_diriBC_not_in_range mat q L1).
Qed.

Lemma impose_diriBC_inv mat q pins mat' q' :
  impose_diriBC mat q pins = Ok (mat', q') →
  pins_in_range mat q pins ∧
  mat' = eliminate_zeros (Csr (ncols mat) (pinned_rows (rows mat) pins)) ∧
  q' = pinned_q q pins.
Proof.
  intros Hok.
  destruct (decide (pins_in_range mat q pins)) as [Hin|Hout].
  - rewrite impose_diriBC_ok in Hok by (by apply pins_in_range_iff).
    by simplify_eq.
  - by rewrite impose_diriBC_not_in_range in Hok.
Qed.

(** X4.  In the system [impose_diriBC] returns, every pinned row sums to one,
    every other row keeps its sum, and no stored entry is zero. *)
Theorem impose_diriBC_row_sums (mat mat' : csr) (q q' : list Q)
    (diriBC : list (nat * Q)) :
  impose_diriBC mat q diriBC = Ok (mat', q') →
  (∀ i, i ∈ diriBC.*1 → (row_sum mat' i == 1)%Q) ∧
  (∀ r, r ∉ diriBC.*1 → (row_sum mat' r == row_sum mat r)%Q) ∧
  (∀ r c v, csr_row mat' r !! c = Some v → ¬ (v == 0)%Q).
Proof.
  intros (Hin & -> & ->)%impose_diriBC_inv.
  split; [|split].
  - intros i Hi.
    destruct (proj1 (pins_in_range_iff _ _ _) Hin i Hi) as (Hr & Hc & _).
    unfold row_sum. simpl.
    rewrite (Qsum_ext _ (λ c, if decide (Z.of_nat c = Z.of_nat i) then 1 else 0)%Q).
    2:{ intros c _. unfold csr_get, csr_row. simpl.
        rewrite list_lookup_fmap, pinned_rows_lookup.
        destruct (lookup_lt_is_Some_2 (rows mat) i Hr) as [row ->]. simpl.
        rewrite decide_True by done. rewrite filter_pin_row. unfold row_get.
        destruct (decide (i = c)) as [->|Hic].
        - rewrite lookup_singleton_eq, decide_True by done. reflexivity.
        - rewrite lookup_singleton_ne, decide_False by lia. reflexivity. }
    rewrite Qsum_single. by rewrite decide_True by lia.
  - intros r Hr. unfold row_sum. simpl. apply Qsum_ext. intros c _.
    rewrite csr_get_eliminate_zeros. unfold csr_get, csr_row. simpl.
    rewrite pinned_rows_lookup.
    destruct (rows mat !! r) as [row|]; simpl; [|reflexivity].
    by rewrite decide_False by done.
  - intros r c v. unfold csr_row, eliminate_zeros. simpl.
    rewrite list_lookup_fmap.
    destruct (pinned_rows (rows mat) diriBC !! r) as [row|]; simpl.
    + intros [_ Hnz]%map_lookup_filter_Some. exact Hnz.
    + by rewrite lookup_empty.
Qed.

Lemma impose_diriBC_row_sums_witness :
  (row_sum mat_2_pinned 0 == 1)%Q ∧ (row_sum mat_2_pinned 1 == row_sum mat_2 1)%Q.
Proof.
  assert (H1 : impose_diriBC mat_2 [0%Q; 0%Q] [(0, 5%Q)]
               = Ok (mat_2_pinned, [5%Q; 0%Q])).
  { vm_compute. reflexivity. }
  destruct (impose_diriBC_row_sums _ _ _ _ _ H1) as (Hpin & Hfree & _).
  split.
  - apply Hpin. simpl. apply elem_of_cons. by left.
  - apply Hfree. simpl. intros Hin.
    apply elem_of_cons in Hin as [Hin|Hin]; [lia|]. by apply elem_of_nil in Hin.
Defined.

(** With one pin per cell, the last pin of a cell is its only pin. *)
Lemma last_pin_NoDup pins j v :
  NoDup pins.*1 → last_pin pins j = Some v ↔ (j, v) ∈ pins.
Proof.
  induction pins as [|[i w] pins IH]; simpl; intros Hnd.
  - split; [done|by intros ?%elem_of_nil].
  - apply NoDup_cons in Hnd as [Hi Hnd]. specialize (IH Hnd).
    rewrite elem_of_cons. split.
    + destruct (last_pin pins j) as [u|] eqn:Hlast.
      * intros [= ->]. right. by apply IH.
      * case_decide; [|done]. intros [= ->]. subst. by left.
    + intros [[= -> ->]|Hin].
      * rewrite last_pin_None by done. by rewrite decide_True.
      * apply IH in Hin. by rewrite Hin.
Qed.

Lemma last_pin_Permutation L L' j :
  L ≡ₚ L' → NoDup L.*1 → last_pin L j = last_pin L' j.
Proof.
  intros Hperm Hnd.
  assert (Hnd' : NoDup L'.*1) by (by rewrite <- Hperm).
  apply option_eq. intros v.
  rewrite !last_pin_NoDup by done. by rewrite Hperm.
Qed.

(** X5.  When no cell is pinned twice, the order of the pins does not
    matter: a permutation of the list gives the same result. *)
Theorem impose_diriBC_Permutation (mat : csr) (q : list Q)
    (L L' : list (nat * Q)) :
  L ≡ₚ L' → NoDup L.*1 →
  impose_diriBC mat q L = impose_diriBC mat q L'.
Proof.
  intros Hperm Hnd.
  destruct (decide (pins_in_range mat q L)) as [Hin|Hout].
  - assert (Hin' : pins_in_range mat q L').
    { unfold pins_in_range in *. by rewrite <- Hperm. }
    rewrite !impose_diriBC_ok by (by apply pins_in_range_iff).
    do 2 f_equal.
    + f_equal. f_equal. apply list_eq. intros r. rewrite !pinned_rows_lookup.
      destruct (rows mat !! r) as [row|]; [simpl|done]. f_equal.
      apply decide_ext. by rewrite Hperm.
    + apply list_eq. intros j. rewrite !pinned_q_lookup.
      by rewrite (last_pin_Permutation L L').
  - rewrite !impose_diriBC_not_in_range; [done| |done].
    unfold pins_in_range in *. by rewrite <- Hperm.
Qed.

Lemma impose_diriBC_Permutation_witness :
  impose_diriBC mat_2 [0%Q; 0%Q] [(0, 5%Q); (1, 7%Q)]
  = impose_diriBC mat_2 [0%Q; 0%Q] [(1, 7%Q); (0, 5%Q)].
Proof.
  apply impose_diriBC_Permutation.
  - apply perm_swap.
  - simpl. apply NoDup_cons. split.
    + intros Hin. apply elem_of_cons in Hin as [Hin|Hin]; [lia|].
      by apply elem_of_nil in Hin.
    + apply NoDup_singleton.
Defined.

(** * Further properties of [transmi] *)

(** X6.  The matrix [transmi] returns couples a cell only with itself and its
    four grid neighbours: every entry off the five diagonals is zero, and so
    are the entries on the diagonals [+1] and [-1] that would join the last
    cell of one grid row to the first cell of the next. *)
Theorem transmi_pentadiagonal (g : Grid) (k : list (list Q)) :
  grid_ok g → (0 < lx g)%Q → (0 < ly g)%Q → 2 ≤ nx g →
  has_shape (ny g) (nx g) k →
  ∃ mat tx ty,
    transmi g k = Ok (mat, tx, ty) ∧
    (∀ r c, r < ncell g → c < ncell g →
       c + nx g ≠ r → c + 1 ≠ r → c ≠ r → c ≠ r + 1 → c ≠ r + nx g →
       (csr_get mat r c == 0)%Q) ∧
    (∀ i, i + 1 < ny g →
       (csr_get mat (i * nx g + (nx g - 1)) ((i + 1) * nx g) == 0)%Q ∧
       (csr_get mat ((i + 1) * nx g) (i * nx g + (nx g - 1)) == 0)%Q).
Proof.
  intros Hg Hlx Hly Hnx2 Hk.
  destruct (grid_ok_inv g Hg) as (Hnx & Hny & Hn & _).
  eexists _, _, _. split; [by apply transmi_ok|]. split.
  - intros r c Hr Hc H1 H2 H3 H4 H5. rewrite transmi_get by done.
    unfold transmi_entry. by rewrite !decide_False by done.
  - intros i Hi.
    assert (Hfirst : x1_spec g k ((i + 1) * nx g) = 0%Q).
    { apply x1_first. by rewrite Nat.Div0.mod_mul. }
    assert (Hlast : x2_spec g k (i * nx g + (nx g - 1)) = 0%Q).
    { rewrite (x2_x1 g k Hg).
      replace (i * nx g + (nx g - 1) + 1) with ((i + 1) * nx g) by lia. done. }
    split.
    + rewrite transmi_get by nia. unfold transmi_entry.
      do 3 rewrite decide_False by nia. rewrite decide_True by nia.
      rewrite Hfirst. reflexivity.
    + rewrite transmi_get by nia. unfold transmi_entry.
      rewrite decide_False by nia. rewrite decide_True by nia.
      rewrite Hlast. reflexivity.
Qed.

Lemma transmi_pentadiagonal_witness :
  ∃ mat tx ty,
    transmi grid_2x2 k_2x2 = Ok (mat, tx, ty) ∧
    (csr_get mat 0 3 == 0)%Q ∧ (csr_get mat 1 2 == 0)%Q ∧ (csr_get mat 2 1 == 0)%Q.
Proof.
  destruct (transmi_pentadiagonal grid_2x2 k_2x2)
    as (mat & tx & ty & Hret & Hfar & Hwrap).
  - vm_compute. reflexivity.
  - reflexivity.
  - reflexivity.
  - simpl. lia.
  - split; [reflexivity|]. repeat constructor.
  - exists mat, tx, ty. split; [exact Hret|]. split.
    + apply Hfar; simpl; lia.
    + apply (Hwrap 0). simpl. lia.
Defined.

(** * [transmi] on a single column *)

Lemma reshape1_error n a e : reshape1 n a = Err e → e = ValueError.
Proof. unfold reshape1. case_decide; [done|]. by intros [= <-]. Qed.

(** X9.  On a grid with a single column [transmi] raises [ValueError] for
    every permeability array: the offsets [-nx] and [-1], and [1] and [nx],
    coincide. *)
Theorem transmi_single_column_ValueError (g : Grid) (k : list (list Q)) :
  grid_ok g → (0 < lx g)%Q → (0 < ly g)%Q → nx g = 1 →
  transmi g k = Err ValueError.
Proof.
  intros Hg Hlx Hly Hnx1.
  destruct (cell_size_pos g Hg Hlx Hly) as [Hdx Hdy].
  unfold transmi.
  rewrite (py_div_ok _ (dx g)) by (intros E; rewrite E in Hdx; by apply Qlt_irrefl in Hdx).
  rewrite result_bind_Ok.
  rewrite (py_div_ok _ (dy g)) by (intros E; rewrite E in Hdy; by apply Qlt_irrefl in Hdy).
  rewrite result_bind_Ok. cbv zeta.
  repeat match goal with
  | |- (reshape1 ?n ?a ≫= _) = _ =>
      let x := fresh "x" in
      let E := fresh "E" in
      destruct (reshape1 n a) as [x|?] eqn:E;
        [rewrite result_bind_Ok
        |apply reshape1_error in E; by subst]
  end.
  unfold spdiags. rewrite Hnx1. rewrite decide_False; [done|].
  intros [_ Hnd]. apply NoDup_cons in Hnd as [Hnd _]. apply Hnd.
  apply elem_of_cons. by left.
Qed.

Lemma transmi_single_column_ValueError_witness :
  transmi grid_1x3 [[2%Q]; [2%Q]; [2%Q]] = Err ValueError.
Proof.
  apply transmi_single_column_ValueError.
  - vm_compute. reflexivity.
  - reflexivity.
  - reflexivity.
  - reflexivity.
Defined.

Lemma dia_row_nonzero n r diags data c v :
  dia_row n r diags data !! c = Some v → nonzero v.
Proof.
  revert data; induction diags as [|off diags IH]; intros data.
  - destruct data; simpl; by rewrite lookup_empty.
  - destruct data as [|d data]; simpl; [by rewrite lookup_empty|].
    case_decide; [|apply IH].
    destruct (d !! Z.to_nat (Z.of_nat r + off)) as [w|]; [|apply IH].
    case_decide as Hw; [|apply IH].
    destruct (decide (Z.to_nat (Z.of_nat r + off) = c)) as [<-|Hne].
    + rewrite lookup_insert_eq. by intros [= <-].
    + rewrite lookup_insert_ne by done. apply IH.
Qed.

Lemma spdiags_nonzero data diags m n mat r c v :
  spdiags data diags m n = Ok mat → csr_row mat r !! c = Some v → nonzero v.
Proof.
  unfold spdiags. case_decide; [|done]. intros [= <-].
  unfold csr_row. simpl. rewrite list_lookup_fmap.
  destruct (seq 0 m !! r) as [r'|]; simpl.
  - apply dia_row_nonzero.
  - by rewrite lookup_empty.
Qed.

Lemma transmi_inv_spdiags g k mat tx ty :
  transmi g k = Ok (mat, tx, ty) →
  ∃ data diags, spdiags data diags (ncell g) (ncell g) = Ok mat.
Proof.
  unfold transmi. intros Hok.
  repeat match type of Hok with
  | (?r ≫= _) = Ok _ =>
      let x := fresh "x" in
      let E := fresh "E" in
      destruct r as [x|] eqn:E; [rewrite result_bind_Ok in Hok; cbv zeta in Hok|done]
  end.
  injection Hok as <- _ _. eauto.
Qed.

(** X10.  The matrix [transmi] returns stores no zero, so imposing pins on
    it leaves the storage of every row that is not pinned exactly as
    [transmi] built it. *)
Theorem transmi_impose_rows (g : Grid) (k : list (list Q)) (q : list Q)
    (diriBC : list (nat * Q)) (mat mat' : csr) (tx ty : list (list Q))
    (q' : list Q) :
  transmi g k = Ok (mat, tx, ty) →
  impose_diriBC mat q diriBC = Ok (mat', q') →
  (∀ r c v, csr_row mat r !! c = Some v → ¬ (v == 0)%Q) ∧
  (∀ r, r ∉ diriBC.*1 → csr_row mat' r = csr_row mat r).
Proof.
  intros (data & diags & Hsp)%transmi_inv_spdiags
         (Hin & -> & ->)%impose_diriBC_inv.
  assert (Hnz : ∀ r c v, csr_row mat r !! c = Some v → nonzero v).
  { intros r c v. by apply (spdiags_nonzero _ _ _ _ _ _ _ _ Hsp). }
  split; [exact Hnz|].
  intros r Hr. unfold csr_row at 1. unfold eliminate_zeros. simpl.
  rewrite list_lookup_fmap, pinned_rows_lookup.
  unfold csr_row in *. specialize (Hnz r).
  destruct (rows mat !! r) as [row|]; simpl in *; [|done].
  rewrite decide_False by done.
  apply map_filter_id. intros c v Hv. simpl. by eapply Hnz.
Qed.

Lemma transmi_impose_rows_witness :
  ∃ mat tx ty mat' q',
    transmi grid_2x2 k_2x2 = Ok (mat, tx, ty) ∧
    impose_diriBC mat (replicate 4 0%Q) [(2, 1%Q)] = Ok (mat', q') ∧
    csr_row mat' 0 = csr_row mat 0 ∧ csr_row mat' 3 = csr_row mat 3.
Proof.
  destruct (transmi grid_2x2 k_2x2) as [[[mat tx] ty]|] eqn:Ht;
    [|vm_compute in Ht; discriminate Ht].
  destruct (impose_diriBC mat (replicate 4 0%Q) [(2, 1%Q)]) as [[mat' q']|] eqn:Hi.
  - destruct (transmi_impose_rows _ _ _ _ _ _ _ _ _ Ht Hi) as [_ Hrows].
    exists mat, tx, ty, mat', q'.
    split; [reflexivity|]. split; [exact Hi|]. split.
    + apply Hrows. simpl. intros Hin.
      apply elem_of_cons in Hin as [Hin|Hin]; [lia|]. by apply elem_of_nil in Hin.
    + apply Hrows. simpl. intros Hin.
      apply elem_of_cons in Hin as [Hin|Hin]; [lia|]. by apply elem_of_nil in Hin.
  - exfalso. vm_compute in Ht. injection Ht as <- _ _.
    vm_compute in Hi. discriminate Hi.
Defined.

(** * Five-diagonal matrices *)

Section Penta.
Variables (n w : nat) (D1 D2 D3 D4 D5 : nat → Q).
Hypothesis Hw : 2 ≤ w.

Lemma penta_get r c :
  r < n → c < n →
  (csr_get (penta_mat n w D1 D2 D3 D4 D5) r c
   == penta_entry w D1 D2 D3 D4 D5 r c)%Q.
Proof.
  intros Hr Hc. unfold penta_mat.
  rewrite csr_get_spdiags by (done || by apply penta_NoDup).
  unfold penta, penta_entry. cbn [dia_get].
  rewrite !at1_tab by done.
  repeat case_decide; try reflexivity; exfalso; lia.
Qed.
End Penta.

(** * [convecti] on flux arrays with a leading axis *)

Lemma Qmin0_nonpos x : (Qmin0 x <= 0)%Q.
Proof. unfold Qmin0. apply Q.le_min_r. Qed.

Lemma Qmax0_nonneg x : (0 <= Qmax0 x)%Q.
Proof. unfold Qmax0. apply Q.le_max_r. Qed.

Lemma convecti_ok (g : Grid) (vx vy : list (list Q)) :
  grid_ok g → 2 ≤ nx g →
  has_shape (ny g) (nx g + 1) vx → has_shape (ny g + 1) (nx g) vy →
  convecti g (Flux (Arr3 [vx]) (Arr3 [vy])) = Ok (convecti_mat g vx vy).
Proof.
  intros Hg Hnx2 Hvx Hvy.
  destruct (grid_ok_inv g Hg) as (Hnx & Hny & Hn & _).
  pose proof (tab_of_shape vx _ _ Hvx) as Evx.
  pose proof (tab_of_shape vy _ _ Hvy) as Evy.
  remember (convecti_mat g vx vy) as M eqn:HM.
  set (VX := at2 vx) in Evx. set (VY := at2 vy) in Evy.
  unfold convecti. cbv zeta.
  cbn [flux_x flux_y nd_map nd_index3_cols nd_index3_rows].
  rewrite !fmap_cons, !fmap_nil, !result_bind_Ok.
  unfold reshape1_3. cbn [mjoin list_join]. rewrite !app_nil_r.
  rewrite Evx, Evy.
  rewrite !map2d_tab, !cols_tab by lia.
  rewrite !(slice_tab (A := list Q)) by lia.
  replace (nx g + 1 - 1) with (nx g) by lia.
  replace (nx g - 0) with (nx g) by lia.
  replace (ny g + 1 - 1) with (ny g) by lia.
  replace (ny g - 0) with (ny g) by lia.
  rewrite !reshape1_tab by lia.
  rewrite !result_bind_Ok.
  rewrite !neg_tab, !ew1_tab.
  rewrite spdiags_ok; [|done|by apply penta_NoDup].
  subst M. unfold convecti_mat, penta_mat, penta, cx1, cx2, cy1, cy2.
  fold VX VY.
  do 3 f_equal.
  match goal with
  | |- (λ r1, dia_row _ r1 _ ?d1) = (λ r2, dia_row _ r2 _ ?d2) =>
      assert (Hd : d1 = d2); [|by rewrite Hd]
  end.
  repeat (f_equal; try (apply tab_ext; intros m _; simpl;
                        rewrite ?Nat.add_1_r; reflexivity)).
Qed.

(** X11.  On flux arrays that carry one more leading axis of length one,
    shapes [(1, ny, nx+1)] and [(1, ny+1, nx)], and a grid with at least two
    columns, [convecti] returns the first-order upwind matrix: the row of
    cell [m = i*nx + j] has minus the positive part of the west and south
    face fluxes at columns [m-1] and [m-nx], the negative part of the east
    and north face fluxes at columns [m+1] and [m+nx], and on the diagonal
    the positive parts leaving by the east and north faces minus the
    negative parts at the west and south faces. *)
Theorem convecti_spec (g : Grid) (vx vy : list (list Q)) :
  grid_ok g → 2 ≤ nx g →
  has_shape (ny g) (nx g + 1) vx → has_shape (ny g + 1) (nx g) vy →
  ∃ mat,
    convecti g (Flux (Arr3 [vx]) (Arr3 [vy])) = Ok mat ∧
    nrows mat = ncell g ∧ ncols mat = ncell g ∧
    ∀ i j, i < ny g → j < nx g →
      let m := i * nx g + j in
      (1 ≤ j → (csr_get mat m (m - 1) == - Qmax0 (at2 vx i j))%Q) ∧
      (j + 1 < nx g → (csr_get mat m (m + 1) == Qmin0 (at2 vx i (j + 1)))%Q) ∧
      (1 ≤ i → (csr_get mat m (m - nx g) == - Qmax0 (at2 vy i j))%Q) ∧
      (i + 1 < ny g → (csr_get mat m (m + nx g) == Qmin0 (at2 vy (i + 1) j))%Q) ∧
      (csr_get mat m m
       == Qmax0 (at2 vx i (j + 1)) - Qmin0 (at2 vx i j)
          + Qmax0 (at2 vy (i + 1) j) - Qmin0 (at2 vy i j))%Q.
Proof.
  intros Hg Hnx2 Hvx Hvy.
  destruct (grid_ok_inv g Hg) as (Hnx & Hny & Hn & _).
  exists (convecti_mat g vx vy). split; [by apply convecti_ok|].
  split; [unfold nrows; simpl; by rewrite length_fmap, length_seq|].
  split; [done|].
  intros i j Hi Hj m.
  assert (Hm : m < ncell g) by (unfold m; nia).
  destruct (divmod_cell (nx g) i j Hj) as [Hd Hmod]. fold m in Hd, Hmod.
  unfold convecti_mat.
  split; [|split; [|split; [|split]]].
  - intros Hj1. rewrite penta_get by (done || lia). unfold penta_entry.
    rewrite decide_False by lia. rewrite decide_True by lia.
    unfold cx2.
    destruct (divmod_cell (nx g) i (j - 1)) as [Hd' Hmod']; [lia|].
    replace (m - 1) with (i * nx g + (j - 1)) by (unfold m; lia).
    rewrite Hd', Hmod'. by replace (j - 1 + 1) with j by lia.
  - intros Hj1. rewrite penta_get by (done || unfold m; nia). unfold penta_entry.
    do 3 rewrite decide_False by lia. rewrite decide_True by lia.
    unfold cx1.
    destruct (divmod_cell (nx g) i (j + 1)) as [Hd' Hmod']; [lia|].
    replace (m + 1) with (i * nx g + (j + 1)) by (unfold m; lia).
    by rewrite Hd', Hmod'.
  - intros Hi1. rewrite penta_get by (done || lia). unfold penta_entry.
    rewrite decide_True by (unfold m; nia).
    unfold cy2.
    destruct (divmod_cell (nx g) (i - 1) j) as [Hd' Hmod']; [lia|].
    replace (m - nx g) with ((i - 1) * nx g + j) by (unfold m; nia).
    rewrite Hd', Hmod'. by replace (i - 1 + 1) with i by lia.
  - intros Hi1. rewrite penta_get by (done || unfold m; nia). unfold penta_entry.
    do 4 rewrite decide_False by lia. rewrite decide_True by lia.
    unfold cy1.
    destruct (divmod_cell (nx g) (i + 1) j) as [Hd' Hmod']; [lia|].
    replace (m + nx g) with ((i + 1) * nx g + j) by (unfold m; nia).
    by rewrite Hd', Hmod'.
  - rewrite penta_get by done. unfold penta_entry.
    do 2 rewrite decide_False by lia. rewrite decide_True by done.
    unfold cx1, cx2, cy1, cy2. by rewrite Hd, Hmod.
Qed.

Lemma convecti_spec_witness :
  ∃ mat,
    convecti grid_2x2
      (Flux (Arr3 [[[0; -2; 0]; [0; 4; 0]]]%Q) (Arr3 [[[0; 0]; [3; -1]; [0; 0]]]%Q))
    = Ok mat ∧
    (csr_get mat 1 0 == - Qmax0 (-2))%Q ∧
    (csr_get mat 2 3 == Qmin0 4)%Q ∧
    (csr_get mat 3 1 == - Qmax0 (-1))%Q.
Proof.
  destruct (convecti_spec grid_2x2 [[0; -2; 0]; [0; 4; 0]]%Q
              [[0; 0]; [3; -1]; [0; 0]]%Q)
    as (mat & Hret & _ & _ & Hmat).
  - vm_compute. reflexivity.
  - simpl. lia.
  - split; [reflexivity|]. repeat constructor.
  - split; [reflexivity|]. repeat constructor.
  - exists mat. split; [exact Hret|]. split; [|split].
    + destruct (Hmat 0 1) as (Hwest & _); [simpl; lia..|].
      apply Hwest. lia.
    + destruct (Hmat 1 0) as (_ & Heast & _); [simpl; lia..|].
      apply Heast. simpl. lia.
    + destruct (Hmat 1 1) as (_ & _ & Hsouth & _); [simpl; lia..|].
      apply Hsouth. lia.
Defined.

(** X12.  Whatever the flux, every off-diagonal entry of the upwind matrix
    is non-positive and every diagonal entry is non-negative. *)
Theorem convecti_signs (g : Grid) (vx vy : list (list Q)) :
  grid_ok g → 2 ≤ nx g →
  has_shape (ny g) (nx g + 1) vx → has_shape (ny g + 1) (nx g) vy →
  ∃ mat,
    convecti g (Flux (Arr3 [vx]) (Arr3 [vy])) = Ok mat ∧
    ∀ r c, r < ncell g → c < ncell g →
      (r ≠ c → (csr_get mat r c <= 0)%Q) ∧ (0 <= csr_get mat r r)%Q.
Proof.
  intros Hg Hnx2 Hvx Hvy.
  destruct (grid_ok_inv g Hg) as (Hnx & _).
  exists (convecti_mat g vx vy). split; [by apply convecti_ok|].
  intros r c Hr Hc. unfold convecti_mat. rewrite !penta_get by done.
  unfold penta_entry, cx1, cx2, cy1, cy2. split.
  - intros Hne.
    repeat case_decide; try done;
      try (apply (Qopp_le_compat 0); apply Qmax0_nonneg);
      apply Qmin0_nonpos.
  - do 2 rewrite decide_False by lia. rewrite decide_True by done.
    pose proof (Qmax0_nonneg (at2 vx (r / nx g) (r `mod` nx g + 1))).
    pose proof (Qmin0_nonpos (at2 vx (r / nx g) (r `mod` nx g))).
    pose proof (Qmax0_nonneg (at2 vy (r / nx g + 1) (r `mod` nx g))).
    pose proof (Qmin0_nonpos (at2 vy (r / nx g) (r `mod` nx g))).
    lra.
Qed.

Lemma convecti_signs_witness :
  ∃ mat,
    convecti grid_2x2
      (Flux (Arr3 [[[0; -2; 0]; [0; 4; 0]]]%Q) (Arr3 [[[0; 0]; [3; -1]; [0; 0]]]%Q))
    = Ok mat ∧
    (csr_get mat 0 1 <= 0)%Q ∧ (0 <= csr_get mat 0 0)%Q.
Proof.
  destruct (convecti_signs grid_2x2 [[0; -2; 0]; [0; 4; 0]]%Q
              [[0; 0]; [3; -1]; [0; 0]]%Q)
    as (mat & Hret & Hsign).
  - vm_compute. reflexivity.
  - simpl. lia.
  - split; [reflexivity|]. repeat constructor.
  - split; [reflexivity|]. repeat constructor.
  - exists mat. split; [exact Hret|]. split.
    + apply (Hsign 0 1); simpl; lia.
    + apply (Hsign 0 0); simpl; lia.
Defined.

(** * Further properties of the solver object *)

Lemma py_all_true_inv (k : list (list Q)) :
  py_all (gt0 k) = Ok true →
  Forall (λ row, length row = 1) k ∧ all_positive k.
Proof.
  induction k as [|row k IH]; [by split; constructor|].
  unfold gt0 in *. rewrite fmap_cons. simpl.
  destruct row as [|x [|y row]]; simpl; try done.
  destruct (Qlt_le_dec 0 x) as [Hx|Hx]; simpl; [|done].
  intros Hk. destruct (IH Hk) as [Hlen Hpos]. split.
  - by constructor.
  - constructor; [by repeat constructor|done].
Qed.

(** X15.  An assignment to [k] that returns has stored an array all of whose
    rows have exactly one entry, every entry strictly positive; [self.k] then
    reads that array back and no other attribute has changed. *)
Theorem set_k_stores (self self' : gmap string value) (k : list (list Q)) :
  set_k self k = Ok self' →
  Forall (λ row, length row = 1) k ∧ all_positive k ∧
  get_k self' = Ok (VArr2 k) ∧
  ∀ name, name ≠ "_PressureSolver__k" → getattr self' name = getattr self name.
Proof.
  unfold set_k. destruct (py_all (gt0 k)) as [[|]|] eqn:Hall; simpl; try done.
  intros [= <-]. destruct (py_all_true_inv k Hall) as [Hlen Hpos].
  split; [done|]. split; [done|]. split.
  - unfold get_k. apply getattr_insert_eq.
  - intros name Hname. by apply getattr_insert_ne.
Qed.

Lemma set_k_stores_witness :
  ∃ self',
    set_k (solver_1x1 None) [[2%Q]; [3%Q]] = Ok self' ∧
    get_k self' = Ok (VArr2 [[2%Q]; [3%Q]]) ∧
    getattr self' "q" = getattr (solver_1x1 None) "q".
Proof.
  eexists. split; [reflexivity|].
  destruct (set_k_stores (solver_1x1 None) _ [[2%Q]; [3%Q]] eq_refl)
    as (_ & _ & Hget & Hother).
  split; [exact Hget|]. by apply Hother.
Defined.

(** X16.  A solver constructed without a pin list holds the grid, [k] and [q]
    it was given, has no pressure and no flux yet, and its boundary list is
    the single pin of value zero at cell [ncell / 2], which is a cell of the
    grid. *)
Theorem init_default_stores (g : Grid) (k : list (list Q)) (q : list Q)
    (mobi_fn : option mobility) (s : option (list Q))
    (self : gmap string value) :
  grid_ok g →
  PressureSolver_init g k q None mobi_fn s = Ok self →
  getattr self "grid" = Ok (VGrid g) ∧
  get_k self = Ok (VArr2 k) ∧
  getattr self "q" = Ok (VArr1 q) ∧
  get_diriBC self = Ok (VPins [(ncell g / 2, 0%Q)]) ∧
  ncell g / 2 < ncell g ∧
  getattr self "mobi_fn" = Ok (opt_value VFun mobi_fn) ∧
  getattr self "s" = Ok (opt_value VArr1 s) ∧
  getattr self "p" = Ok VNone ∧
  getattr self "v" = Ok VNone.
Proof.
  intros Hg. destruct (grid_ok_inv g Hg) as (Hnx & Hny & Hn & _).
  assert (Hdiv : ncell g / 2 < ncell g) by (apply Nat.div_lt; nia).
  unfold PressureSolver_init, set_k.
  destruct (py_all (gt0 k)) as [[|]|]; simpl; try done.
  unfold getattr at 1. simplify_map_eq. simpl. intros [= <-].
  unfold get_k, get_diriBC, getattr. simplify_map_eq.
  repeat split; try done.
Qed.

Lemma init_default_stores_witness :
  get_diriBC (solver_1x1 (Some (VPins [(0, 0%Q)]))) = Ok (VPins [(0, 0%Q)]) ∧
  get_k (solver_1x1 (Some (VPins [(0, 0%Q)]))) = Ok (VArr2 [[1%Q]]).
Proof.
  destruct (init_default_stores grid_1x1 [[1%Q]] [0%Q] None None
              (solver_1x1 (Some (VPins [(0, 0%Q)]))))
    as (_ & Hk & _ & Hbc & _).
  - vm_compute. reflexivity.
  - reflexivity.
  - split; [exact Hbc|exact Hk].
Defined.

(** X17.  [update(diriBC=v)] does not reach the property [diriBC]: it adds
    the inert dictionary entry ["diriBC"], the boundary list read back is
    unchanged, and so is the next [step] apart from that entry. *)
Theorem update_diriBC_not_merged (spsolve : csr → list Q → result (list Q))
    (self : gmap string value) (v : value) :
  get_diriBC (update self {["diriBC" := v]}) = get_diriBC self ∧
  step spsolve (update self {["diriBC" := v]})
  = insert "diriBC" v <$> step spsolve self.
Proof.
  rewrite update_singleton. split.
  - unfold get_diriBC. by apply getattr_insert_ne.
  - unfold step, get_k, get_diriBC.
    rewrite !(getattr_insert_ne self "diriBC") by done.
    repeat match goal with
    | |- (?r ≫= _) = _ <$> (?r ≫= _) =>
        let x := fresh in destruct r as [x|];
          [change (Ok x ≫= ?f) with (f x); cbv beta zeta|reflexivity]
    | |- (let '(_, _) := ?p in _) = _ => destruct p
    | |- (match ?p with (_, _) => _ end) = _ => destruct p
    end.
    cbn [fmap result_fmap]. f_equal.
    rewrite (insert_insert_ne _ "p" "diriBC") by done.
    by rewrite (insert_insert_ne _ "v" "diriBC") by done.
Qed.

(** * [reshape] to two dimensions *)

Lemma tab_S {A : Type} n (F : nat → A) :
  tab (S n) F = F 0 :: tab n (λ i, F (S i)).
Proof.
  unfold tab. cbn [seq]. rewrite fmap_cons. f_equal.
  rewrite <- fmap_S_seq, <- list_fmap_compose. done.
Qed.

Lemma reshape_tab (l : list Q) r c :
  length l = r * c →
  reshape (replicate r c) l = tab r (λ i, tab c (λ j, at1 l (i * c + j))).
Proof.
  revert l; induction r as [|r IH]; intros l Hlen; [done|].
  rewrite tab_S. cbn [replicate reshape]. f_equal.
  - apply tab_intro; [rewrite length_take; lia|].
    intros j Hj. rewrite lookup_take_lt by done. unfold at1. simpl.
    destruct (lookup_lt_is_Some_2 l j) as [x ->]; [lia|done].
  - rewrite IH by (rewrite length_drop; lia).
    apply tab_ext; intros i _. apply tab_ext; intros j _.
    unfold at1. rewrite lookup_drop. do 2 f_equal. lia.
Qed.

Lemma reshape2_inv r c l a :
  reshape2 r c l = Ok a →
  length l = r * c ∧ a = tab r (λ i, tab c (λ j, at1 l (i * c + j))).
Proof.
  unfold reshape2. case_decide as Hlen; [|done]. intros [= <-].
  split; [done|]. by apply reshape_tab.
Qed.

Lemma has_shape_tab r c (F : nat → nat → Q) :
  has_shape r c (tab r (λ i, tab c (F i))).
Proof.
  split; [apply length_tab|]. unfold tab at 1.
  apply Forall_fmap, Forall_forall. intros i _. simpl. apply length_tab.
Qed.

(** * [step] *)

Lemma as_grid_inv r g : r ≫= as_grid = Ok g → r = Ok (VGrid g).
Proof. destruct r as [[]|]; simpl; try done. by intros [= ->]. Qed.

Lemma as_arr2_inv r a : r ≫= as_arr2 = Ok a → r = Ok (VArr2 a).
Proof. destruct r as [[]|]; simpl; try done. by intros [= ->]. Qed.

Lemma as_pins_inv r l : r ≫= as_pins = Ok l → r = Ok (VPins l).
Proof. destruct r as [[]|]; simpl; try done. by intros [= ->]. Qed.

(** The stages of a step that returns. *)
Lemma step_inv spsolve (self self' : gmap string value) :
  step spsolve self = Ok self' →
  ∃ g k mobi_fn s k' mat tx ty q bc mat' q' pflat p,
    getattr self "grid" = Ok (VGrid g) ∧
    get_k self = Ok (VArr2 k) ∧
    getattr self "mobi_fn" = Ok mobi_fn ∧
    getattr self "s" = Ok s ∧
    weighted_k (ny g) (nx g) k mobi_fn s = Ok k' ∧
    transmi g k' = Ok (mat, tx, ty) ∧
    getattr self "q" ≫= ravel = Ok q ∧
    get_diriBC self = Ok (VPins bc) ∧
    impose_diriBC mat q bc = Ok (mat', q') ∧
    spsolve mat' q' = Ok pflat ∧
    reshape2 (ny g) (nx g) pflat = Ok p ∧
    self' =
      <["v" := VFlux
          (set_cols (zeros2 (ny g) (nx g + 1)) 1 (nx g)
             (ew2 Qmult (ew2 Qminus (cols p 0 (nx g - 1)) (cols p 1 (nx g)))
                (cols tx 1 (nx g))))
          (set_slice (zeros2 (ny g + 1) (nx g)) 1 (ny g)
             (ew2 Qmult (ew2 Qminus (slice p 0 (ny g - 1)) (slice p 1 (ny g)))
                (slice ty 1 (ny g))))]>
        (<["p" := VArr2 p]> self).
Proof.
  unfold step. intros Hok.
  destruct (getattr self "grid" ≫= as_grid) as [g|] eqn:E1; [|done].
  rewrite result_bind_Ok in Hok.
  destruct (get_k self ≫= as_arr2) as [k|] eqn:E2; [|done].
  rewrite result_bind_Ok in Hok.
  destruct (getattr self "mobi_fn") as [mf|] eqn:E3; [|done].
  rewrite result_bind_Ok in Hok.
  destruct (getattr self "s") as [s|] eqn:E4; [|done].
  rewrite result_bind_Ok in Hok. cbv zeta in Hok.
  destruct (weighted_k (ny g) (nx g) k mf s) as [k'|] eqn:E5; [|done].
  rewrite result_bind_Ok in Hok.
  destruct (transmi g k') as [[[mat tx] ty]|] eqn:E6; [|done].
  rewrite result_bind_Ok in Hok.
  destruct (getattr self "q" ≫= ravel) as [q|] eqn:E7; [|done].
  rewrite result_bind_Ok in Hok.
  destruct (get_diriBC self ≫= as_pins) as [bc|] eqn:E8; [|done].
  rewrite result_bind_Ok in Hok.
  destruct (impose_diriBC mat q bc) as [[mat' q']|] eqn:E9; [|done].
  rewrite result_bind_Ok in Hok.
  destruct (spsolve mat' q') as [pflat|] eqn:E10; [|done].
  rewrite result_bind_Ok in Hok.
  destruct (reshape2 (ny g) (nx g) pflat) as [p|] eqn:E11; [|done].
  rewrite result_bind_Ok in Hok. injection Hok as <-.
  apply as_grid_inv in E1. apply as_arr2_inv in E2. apply as_pins_inv in E8.
  by exists g, k, mf, s, k', mat, tx, ty, q, bc, mat', q', pflat, p.
Qed.

(** X18.  A step that returns has written the attributes [p] and [v] and no
    other: the grid, the permeability, the source term, the boundary list,
    the mobility function and the saturation are as before. *)
Theorem step_frame (spsolve : csr → list Q → result (list Q))
    (self self' : gmap string value) :
  step spsolve self = Ok self' →
  (∃ p vx vy,
     getattr self' "p" = Ok (VArr2 p) ∧ getattr self' "v" = Ok (VFlux vx vy)) ∧
  get_k self' = get_k self ∧
  get_diriBC self' = get_diriBC self ∧
  ∀ name, name ≠ "p" → name ≠ "v" → getattr self' name = getattr self name.
Proof.
  intros (g & k & mf & s & k' & mat & tx & ty & q & bc & mat' & q' & pflat & p
          & _ & _ & _ & _ & _ & _ & _ & _ & _ & _ & _ & ->)%step_inv.
  split; [|split; [|split]].
  - eexists _, _, _. split.
    + rewrite getattr_insert_ne by done. apply getattr_insert_eq.
    + apply getattr_insert_eq.
  - unfold get_k. by rewrite !getattr_insert_ne.
  - unfold get_diriBC. by rewrite !getattr_insert_ne.
  - intros name Hp Hv. by rewrite !getattr_insert_ne.
Qed.

Lemma step_frame_witness :
  ∃ self',
    step (check_solve p_2x2) solver_2x2 = Ok self' ∧
    getattr self' "q" = Ok (VArr1 [0; 0; 0; 1]%Q) ∧
    get_k self' = Ok (VArr2 (ones2 2 2)).
Proof.
  destruct (step (check_solve p_2x2) solver_2x2) as [self'|] eqn:Hstep;
    [|vm_compute in Hstep; discriminate Hstep].
  destruct (step_frame (check_solve p_2x2) solver_2x2 self' Hstep)
    as (_ & Hk & _ & Hother).
  exists self'. split; [reflexivity|]. split.
  - by rewrite Hother.
  - by rewrite Hk.
Defined.

(** * The flux arrays of [step] in closed form *)

Lemma flux_x_tab (r c : nat) (P TX : nat → nat → Q) :
  1 ≤ c →
  set_cols (zeros2 r (c + 1)) 1 c
    (ew2 Qmult
       (ew2 Qminus (cols (tab r (λ i, tab c (P i))) 0 (c - 1))
                   (cols (tab r (λ i, tab c (P i))) 1 c))
       (cols (tab r (λ i, tab (c + 1) (TX i))) 1 c))
  = tab r (λ i, tab (c + 1) (λ j,
      if decide (1 ≤ j < c) then ((P i (j - 1)%nat - P i j) * TX i j)%Q else 0%Q)).
Proof.
  intros Hc. rewrite !cols_tab by lia.
  replace (c - 1 - 0) with (c - 1) by lia.
  rewrite !ew2_tab, zeros2_tab, set_cols_tab by lia.
  apply tab_ext; intros i _. apply tab_ext; intros j Hj.
  case_decide; [|done]. simpl. replace (S (j - 1)) with j by lia. done.
Qed.

Lemma flux_y_tab (r c : nat) (P TY : nat → nat → Q) :
  1 ≤ r →
  set_slice (zeros2 (r + 1) c) 1 r
    (ew2 Qmult
       (ew2 Qminus (slice (tab r (λ i, tab c (P i))) 0 (r - 1))
                   (slice (tab r (λ i, tab c (P i))) 1 r))
       (slice (tab (r + 1) (λ i, tab c (TY i))) 1 r))
  = tab (r + 1) (λ i, tab c (λ j,
      if decide (1 ≤ i < r) then ((P (i - 1)%nat j - P i j) * TY i j)%Q else 0%Q)).
Proof.
  intros Hr. rewrite !(slice_tab (A := list Q)) by lia.
  replace (r - 1 - 0) with (r - 1) by lia.
  rewrite !ew2_tab, zeros2_tab, set_slice_tab by lia.
  apply tab_ext; intros i Hi. destruct (decide (1 ≤ i < r)) as [Hin|Hout].
  - apply tab_ext; intros j Hj. simpl. replace (S (i - 1)) with i by lia. done.
  - done.
Qed.

(** The pressure and the flux a returning step stores, in terms of the
    solver's answer [pflat] on the pinned system. *)
Lemma step_closed spsolve (self self' : gmap string value) g k mobi_fn s k' :
  getattr self "grid" = Ok (VGrid g) →
  get_k self = Ok (VArr2 k) →
  getattr self "mobi_fn" = Ok mobi_fn →
  getattr self "s" = Ok s →
  weighted_k (ny g) (nx g) k mobi_fn s = Ok k' →
  grid_ok g → (0 < lx g)%Q → (0 < ly g)%Q → 2 ≤ nx g →
  has_shape (ny g) (nx g) k' →
  step spsolve self = Ok self' →
  ∃ q bc mat' q' pflat,
    getattr self "q" ≫= ravel = Ok q ∧
    get_diriBC self = Ok (VPins bc) ∧
    impose_diriBC (transmi_mat g k') q bc = Ok (mat', q') ∧
    spsolve mat' q' = Ok pflat ∧
    length pflat = ncell g ∧
    self' =
      <["v" := VFlux
          (tab (ny g) (λ i, tab (nx g + 1) (λ j,
             if decide (1 ≤ j < nx g)
             then ((at1 pflat (i * nx g + (j - 1))%nat - at1 pflat (i * nx g + j)%nat)
                   * tx_spec g k' i j)%Q
             else 0%Q)))
          (tab (ny g + 1) (λ i, tab (nx g) (λ j,
             if decide (1 ≤ i < ny g)
             then ((at1 pflat ((i - 1) * nx g + j)%nat - at1 pflat (i * nx g + j)%nat)
                   * ty_spec g k' i j)%Q
             else 0%Q)))]>
        (<["p" := VArr2 (tab (ny g) (λ i, tab (nx g) (λ j,
                           at1 pflat (i * nx g + j))))]> self).
Proof.
  intros Hgrid Hk Hmf Hs Hw Hg Hlx Hly Hnx2 Hshape Hstep.
  destruct (grid_ok_inv g Hg) as (Hnx & Hny & Hn & _).
  apply step_inv in Hstep
    as (g0 & k0 & mf0 & s0 & k0' & mat & tx & ty & q & bc & mat' & q' & pflat & p
        & E1 & E2 & E3 & E4 & E5 & E6 & E7 & E8 & E9 & E10 & E11 & ->).
  rewrite Hgrid in E1. injection E1 as <-.
  rewrite Hk in E2. injection E2 as <-.
  rewrite Hmf in E3. injection E3 as <-.
  rewrite Hs in E4. injection E4 as <-.
  rewrite Hw in E5. injection E5 as <-.
  rewrite (transmi_ok g k' Hg Hlx Hly Hshape Hnx2) in E6.
  injection E6 as <- <- <-.
  apply reshape2_inv in E11 as [Hlen ->].
  exists q, bc, mat', q', pflat.
  split; [done|]. split; [done|]. split; [done|]. split; [done|].
  split; [lia|].
  rewrite flux_x_tab, flux_y_tab by lia. done.
Qed.

(** * The pressure and the flux of a step *)

(** X19.  On a grid with at least two columns, a stored permeability [k] of
    the grid's shape and a strictly positive (mobility weighted)
    permeability [k'] of that shape, a step that returns stores a pressure
    of shape [(ny, nx)] and fluxes of shapes [(ny, nx + 1)] and
    [(ny + 1, nx)]; the flux through an interior face is the pressure drop
    across it times the face transmissibility, and the flux through every
    boundary face is zero. *)
Theorem step_flux (spsolve : csr → list Q → result (list Q))
    (self self' : gmap string value) (g : Grid) (k k' : list (list Q))
    (mobi_fn s : value) :
  getattr self "grid" = Ok (VGrid g) →
  get_k self = Ok (VArr2 k) →
  getattr self "mobi_fn" = Ok mobi_fn →
  getattr self "s" = Ok s →
  weighted_k (ny g) (nx g) k mobi_fn s = Ok k' →
  grid_ok g → (0 < lx g)%Q → (0 < ly g)%Q → 2 ≤ nx g →
  has_shape (ny g) (nx g) k →
  has_shape (ny g) (nx g) k' → all_positive k' →
  step spsolve self = Ok self' →
  ∃ p vx vy,
    getattr self' "p" = Ok (VArr2 p) ∧
    getattr self' "v" = Ok (VFlux vx vy) ∧
    has_shape (ny g) (nx g) p ∧
    has_shape (ny g) (nx g + 1) vx ∧
    has_shape (ny g + 1) (nx g) vy ∧
    (∀ i j, i < ny g → 1 ≤ j < nx g →
       at2 vx i j = ((at2 p i (j - 1) - at2 p i j) * tx_spec g k' i j)%Q) ∧
    (∀ i j, 1 ≤ i < ny g → j < nx g →
       at2 vy i j = ((at2 p (i - 1) j - at2 p i j) * ty_spec g k' i j)%Q) ∧
    (∀ i, i < ny g → at2 vx i 0 = 0%Q ∧ at2 vx i (nx g) = 0%Q) ∧
    (∀ j, j < nx g → at2 vy 0 j = 0%Q ∧ at2 vy (ny g) j = 0%Q).
Proof.
  intros Hgrid Hk Hmf Hs Hw Hg Hlx Hly Hnx2 _ Hshape _ Hstep.
  destruct (grid_ok_inv g Hg) as (Hnx & Hny & Hn & _).
  destruct (step_closed _ _ _ _ _ _ _ _ Hgrid Hk Hmf Hs Hw Hg Hlx Hly Hnx2
              Hshape Hstep)
    as (q & bc & mat' & q' & pflat & _ & _ & _ & _ & Hlen & ->).
  eexists _, _, _.
  split; [rewrite getattr_insert_ne by done; apply getattr_insert_eq|].
  split; [apply getattr_insert_eq|].
  split; [apply has_shape_tab|].
  split; [apply has_shape_tab|].
  split; [apply has_shape_tab|].
  split; [|split; [|split]].
  - intros i j Hi Hj. rewrite !at2_tab by lia. by rewrite decide_True.
  - intros i j Hi Hj. rewrite !at2_tab by lia. by rewrite decide_True.
  - intros i Hi. rewrite !at2_tab by lia. by rewrite !decide_False by lia.
  - intros j Hj. rewrite !at2_tab by lia. by rewrite !decide_False by lia.
Qed.

Lemma step_flux_witness :
  ∃ self' p vx vy,
    step (check_solve p_2x2) solver_2x2 = Ok self' ∧
    getattr self' "p" = Ok (VArr2 p) ∧
    getattr self' "v" = Ok (VFlux vx vy) ∧
    at2 vx 1 1 = ((at2 p 1 0 - at2 p 1 1) * tx_spec grid_2x2 (ones2 2 2) 1 1)%Q ∧
    at2 vx 1 2 = 0%Q.
Proof.
  destruct (step (check_solve p_2x2) solver_2x2) as [self'|] eqn:Hstep;
    [|vm_compute in Hstep; discriminate Hstep].
  destruct (step_flux (check_solve p_2x2) solver_2x2 self' grid_2x2
              (ones2 2 2) (ones2 2 2) VNone VNone)
    as (p & vx & vy & Hp & Hv & _ & _ & _ & Hx & _ & Hbx & _).
  - reflexivity.
  - reflexivity.
  - reflexivity.
  - reflexivity.
  - reflexivity.
  - reflexivity.
  - reflexivity.
  - reflexivity.
  - simpl. lia.
  - split; [reflexivity|]. repeat constructor.
  - split; [reflexivity|]. repeat constructor.
  - repeat constructor.
  - exact Hstep.
  - exists self', p, vx, vy. split; [reflexivity|].
    split; [exact Hp|]. split; [exact Hv|]. split.
    + apply (Hx 1 1); simpl; lia.
    + apply (Hbx 1). simpl. lia.
Defined.

(** * Mobility weighting *)

(** X21.  With a mobility function and a saturation, the permeability [step]
    uses in cell [(i, j)] is the stored permeability times the total mobility
    [mw + mo] at the row-major position [i * nx + j]; the result has the
    shape of the grid.  Mobility arrays whose common length is not the
    number of cells make the reshape raise a [ValueError]. *)
Theorem weighted_k_entries (ny nx : nat) (k : list (list Q)) (f : mobility)
    (s mw mo : list Q) :
  has_shape ny nx k →
  f s = (mw, mo) →
  length mw = length mo →
  if decide (length mw = ny * nx) then
    ∃ k', weighted_k ny nx k (VFun f) (VArr1 s) = Ok k' ∧
          has_shape ny nx k' ∧
          ∀ i j, i < ny → j < nx →
            at2 k' i j
            = (at2 k i j * (at1 mw (i * nx + j) + at1 mo (i * nx + j)))%Q
  else weighted_k ny nx k (VFun f) (VArr1 s) = Err ValueError.
Proof.
  intros Hk Hf Hlen. unfold weighted_k. simpl. rewrite Hf.
  assert (Hsum : ew1 Qplus mw mo
                 = tab (length mw) (λ m, (at1 mw m + at1 mo m)%Q)).
  { rewrite (tab_of_list mw (length mw) eq_refl) at 1.
    rewrite (tab_of_list mo (length mw)) at 1 by done.
    apply ew1_tab. }
  unfold reshape2. rewrite Hsum, length_tab.
  case_decide as Hn; [|done].
  rewrite result_bind_Ok, reshape_tab by (by rewrite length_tab).
  eexists. split; [done|].
  pose proof (tab_of_shape k _ _ Hk) as Ek.
  set (K := at2 k) in *. rewrite Ek, ew2_tab.
  split; [apply has_shape_tab|].
  intros i j Hi Hj. rewrite at2_tab by done.
  rewrite at1_tab by nia. done.
Qed.

Lemma weighted_k_entries_witness :
  ∃ k', weighted_k 2 2 k_2x2 (VFun (λ s, (s, s))) (VArr1 [1; 2; 3; 4]%Q) = Ok k' ∧
        at2 k' 1 0 = (at2 k_2x2 1 0 * (3 + 3))%Q.
Proof.
  pose proof (weighted_k_entries 2 2 k_2x2 (λ s, (s, s))
                [1; 2; 3; 4]%Q [1; 2; 3; 4]%Q [1; 2; 3; 4]%Q) as H.
  destruct H as (k' & Hret & _ & Hent).
  - split; [reflexivity|]. repeat constructor.
  - reflexivity.
  - reflexivity.
  - exists k'. split; [exact Hret|]. apply (Hent 1 0); lia.
Defined.

(** * Repeating a step *)

(** [step] reads six attributes; two objects that agree on them take the
    same step. *)
Lemma step_reads spsolve (self1 self2 : gmap string value) :
  (∀ name, name ≠ "p" → name ≠ "v" → self1 !! name = self2 !! name) →
  ∃ r, step spsolve self1 = (λ pv, <["v" := pv.2]> (<["p" := pv.1]> self1)) <$> r ∧
       step spsolve self2 = (λ pv, <["v" := pv.2]> (<["p" := pv.1]> self2)) <$> r.
Proof.
  intros Hsame.
  assert (Hget : ∀ name, name ≠ "p" → name ≠ "v" →
                   getattr self1 name = getattr self2 name).
  { intros name Hp Hv. unfold getattr. by rewrite Hsame. }
  unfold step, get_k, get_diriBC.
  rewrite <- !Hget by done.
  destruct (getattr self1 "grid" ≫= as_grid) as [g|e]; [|by exists (Err e)].
  rewrite !result_bind_Ok.
  destruct (getattr self1 "_PressureSolver__k" ≫= as_arr2) as [k|e];
    [|by exists (Err e)].
  rewrite !result_bind_Ok.
  destruct (getattr self1 "mobi_fn") as [mf|e]; [|by exists (Err e)].
  rewrite !result_bind_Ok.
  destruct (getattr self1 "s") as [s|e]; [|by exists (Err e)].
  rewrite !result_bind_Ok. cbv zeta.
  destruct (weighted_k (ny g) (nx g) k mf s) as [k'|e]; [|by exists (Err e)].
  rewrite !result_bind_Ok.
  destruct (transmi g k') as [[[mat tx] ty]|e]; [|by exists (Err e)].
  rewrite !result_bind_Ok.
  destruct (getattr self1 "q" ≫= ravel) as [q|e]; [|by exists (Err e)].
  rewrite !result_bind_Ok.
  destruct (getattr self1 "_PressureSolver__diriBC" ≫= as_pins) as [bc|e];
    [|by exists (Err e)].
  rewrite !result_bind_Ok.
  destruct (impose_diriBC mat q bc) as [[mat' q']|e]; [|by exists (Err e)].
  rewrite !result_bind_Ok.
  destruct (spsolve mat' q') as [pflat|e]; [|by exists (Err e)].
  rewrite !result_bind_Ok.
  destruct (reshape2 (ny g) (nx g) pflat) as [p|e]; [|by exists (Err e)].
  rewrite !result_bind_Ok.
  by eexists (Ok (VArr2 p, VFlux _ _)).
Qed.

(** X22.  The pressure solve does not depend on the pressure and the flux of
    an earlier step: a second step right after a step that returned returns
    too and leaves every attribute as the first left it. *)
Theorem step_idempotent (spsolve : csr → list Q → result (list Q))
    (self self' : gmap string value) :
  step spsolve self = Ok self' → step spsolve self' = Ok self'.
Proof.
  intros Hstep.
  assert (Hsame : ∀ name, name ≠ "p" → name ≠ "v" → self !! name = self' !! name).
  { intros name Hp Hv.
    apply step_inv in Hstep
      as (g & k & mf & s & k' & mat & tx & ty & q & bc & mat' & q' & pflat & p
          & _ & _ & _ & _ & _ & _ & _ & _ & _ & _ & _ & ->).
    by rewrite !lookup_insert_ne. }
  destruct (step_reads spsolve self self' Hsame) as ([[p v]|e] & H1 & H2).
  - rewrite H2. rewrite H1 in Hstep. simpl in *. injection Hstep as Hs'.
    clear H1 H2 Hsame. subst self'. f_equal. apply map_eq. intros name.
    destruct (decide (name = "v")) as [->|Hv].
    { by rewrite !lookup_insert_eq. }
    rewrite !(lookup_insert_ne _ "v") by done.
    destruct (decide (name = "p")) as [->|Hp].
    { by rewrite !lookup_insert_eq. }
    by rewrite !lookup_insert_ne by done.
  - rewrite H1 in Hstep. done.
Qed.

Lemma step_idempotent_witness :
  ∃ self',
    step (check_solve p_2x2) solver_2x2 = Ok self' ∧
    step (check_solve p_2x2) self' = Ok self'.
Proof.
  destruct (step (check_solve p_2x2) solver_2x2) as [self'|] eqn:Hstep;
    [|vm_compute in Hstep; discriminate Hstep].
  exists self'. split; [reflexivity|].
  apply (step_idempotent (check_solve p_2x2) solver_2x2 self'). exact Hstep.
Defined.

Lemma solve_once_never_returns_witness :
  ∃ e, solve_once (check_solve p_2x2) grid_2x2 k_2x2 [0; 0; 0; 1]%Q
         None None None = Err e.
Proof.
  apply (solve_once_never_returns (check_solve p_2x2) grid_2x2 k_2x2).
  - reflexivity.
  - split; [reflexivity|]. repeat constructor.
Defined.
